(** * Kepler's Goat Herd: the contour solver [compute_contour]

    A shallow embedding of [keplers_goat_herd.py] and the properties its
    specification states about it.

    The source is a vectorised numpy/dask kernel over float64 arrays.  The
    embedding keeps its structure:

    - the arithmetic is an interface ([Arith]): the carrier of array
      elements, Python's float operators, the library functions the kernel
      calls (sin, cos, cosh, sinh, the maximum and minimum behind
      [da.max] and [da.min]) and the literals.  Everything that does not
      depend on the laws of arithmetic is proved for every instance, so it
      holds of binary64 as well as of the real numbers;
    - arrays are Python objects: they live in a store, a variable holds a
      reference, [output = center] aliases and [+=], [/=] write in place;
    - exceptions are values: a call returns [Ok] or [Raise];
    - [np.sum] adds in the order numpy adds in, which depends on the
      shape of the matrix: row by row when it has several columns,
      pairwise down the column when it has one.  An array is one block.

    Two instances are used: the real numbers (where the formulas of the
    specification are compared with those of the code) and binary64 with
    the four library functions left arbitrary (where NaN and the
    infinities exist, and where the order of the additions shows in the
    bits of a sum). *)

From Stdlib Require Import ZArith Reals Lra Lia Floats.
From stdpp Require Import base list.

Set Default Proof Using "Type".

(** ** The arithmetic interface *)

Class Arith := {
  num : Type;
  fadd : num → num → num;
  fsub : num → num → num;
  fmul : num → num → num;
  fdiv : num → num → num;
  fneg : num → num;
  fsin : num → num;
  fcos : num → num;
  fcosh : num → num;
  fsinh : num → num;
  (** [flt x y] is Python's [x < y] (and [y > x]), [fle x y] is [x <= y]
      (and [y >= x]) *)
  flt : num → num → bool;
  fle : num → num → bool;
  (** the combining steps of the reductions [da.max] and [da.min] *)
  fmaximum : num → num → num;
  fminimum : num → num → num;
  (** conversion of a Python int, the literal [0.5] and [np.pi] *)
  of_int : Z → num;
  half : num;
  np_pi : num;
}.

(** ** Exceptions and results *)

(** Every exception the kernel can raise is a Python [ValueError]; the
    constructors tell the messages apart.  [ZeroSizeReduction] is raised by
    the library, not by the kernel: the maximum or minimum of an array
    without elements has no identity.  [NotThisShape] stands for the
    failure of an operation applied to an array of another shape. *)
Inductive exn :=
  | EccentricityNotPositive   (* "Eccentricity must be greater than zero!" *)
  | EccentricityNotBelowOne   (* "Eccentricity must be less than unity!" *)
  | MeanAnomalyRange          (* "Mean anomaly should be in the range (0, 2 pi)" *)
  | TooFewPoints              (* "Need at least two sampling points!" *)
  | ZeroSizeReduction
  | NotThisShape.

(** the four errors of the checks of the kernel *)
Definition kernel_error (x : exn) : Prop :=
  x = EccentricityNotPositive ∨ x = EccentricityNotBelowOne
  ∨ x = MeanAnomalyRange ∨ x = TooFewPoints.

Inductive result (A : Type) :=
  | Ok (a : A)
  | Raise (e : exn).
Arguments Ok {A} a.
Arguments Raise {A} e.

Abbreviation loc := nat (only parsing).

(** ** Arrays and the store *)

(** The three shapes the kernel uses: [(n,)], [(n,1)] and [(n,m)].  A
    matrix carries its number of columns, which its rows cannot give when
    there are none. *)
Inductive ndarray `{Arith} :=
  | Vec (v : list num)
  | Col (c : list num)
  | Mat (ncols : nat) (rows : list (list num)).

(** The store holds the array objects; a reference is a position in it. *)
Abbreviation heap := (list ndarray).

Section Kernel.
Context `{Arith}.

(** A computation reads and writes the store and returns or raises; the
    store survives an exception. *)
Definition M (A : Type) := heap → result A * heap.

Definition ret {A} (a : A) : M A := λ h, (Ok a, h).
Definition raise {A} (e : exn) : M A := λ h, (Raise e, h).
Definition bind {A B} (m : M A) (k : A → M B) : M B :=
  λ h, match m h with
       | (Ok a, h') => k a h'
       | (Raise e, h') => (Raise e, h')
       end.

#[local] Instance M_bind : MBind M := λ A B k m, bind m k.
#[local] Instance M_ret : MRet M := λ A a, ret a.

(** a new array object *)
Definition alloc (a : ndarray) : M loc := λ h, (Ok (length h), h ++ [a]).

Definition load (l : loc) : M ndarray :=
  λ h, match h !! l with
       | Some a => (Ok a, h)
       | None => (Raise NotThisShape, h)
       end.

(** an in-place write into an existing array object *)
Definition store (l : loc) (a : ndarray) : M unit :=
  λ h, (Ok tt, <[l := a]> h).

Definition load_vec (l : loc) : M (list num) :=
  a ← load l;
  match a with Vec v => ret v | _ => raise NotThisShape end.
Definition load_col (l : loc) : M (list num) :=
  a ← load l;
  match a with Col c => ret c | _ => raise NotThisShape end.
Definition load_mat (l : loc) : M (nat * list (list num)) :=
  a ← load l;
  match a with Mat n m => ret (n, m) | _ => raise NotThisShape end.

(** ** Broadcasting *)

(** elementwise on two arrays of one shape *)
Definition vv (op : num → num → num) (a b : list num) : list num :=
  zip_with op a b.
Definition mm (op : num → num → num) (a b : list (list num)) :=
  zip_with (vv op) a b.
(** array and scalar *)
Definition vs (op : num → num → num) (a : list num) (s : num) :=
  (λ x, op x s) <$> a.
Definition sv (op : num → num → num) (s : num) (a : list num) :=
  (λ x, op s x) <$> a.
(** [(m,)] with [(n,1)] and [(n,1)] with [(m,)]: an [(n,m)] matrix *)
Definition vc (op : num → num → num) (v c : list num) : list (list num) :=
  (λ cj, vs op v cj) <$> c.
Definition cv (op : num → num → num) (c v : list num) : list (list num) :=
  (λ cj, sv op cj v) <$> c.
(** [(n,m)] with [(n,1)]: the column entry is shared along a row *)
Definition mc (op : num → num → num) (m : list (list num)) (c : list num) :=
  zip_with (vs op) m c.
Definition cm (op : num → num → num) (c : list num) (m : list (list num)) :=
  zip_with (sv op) c m.
(** [(n,m)] with [(m,)]: the vector is shared by the rows *)
Definition mv (op : num → num → num) (m : list (list num)) (v : list num) :=
  (λ row, vv op row v) <$> m.

(** ** [np.sum(.., axis=0)]

    The order in which numpy adds depends on the shape.  Over a matrix of
    two or more columns the reduction runs row by row: every row is
    added, in order, onto a row of zeros.  A matrix of one column is
    contiguous along the axis that is summed; numpy then hands the whole
    column to the inner loop of [add.reduce], which adds it by pairwise
    summation and adds the result onto the zero the output starts
    from. *)

(** numpy's pairwise summation of [n] numbers: in order for [n < 8]; with
    eight accumulators over the blocks of eight, the accumulators added
    as a tree and the rest added in order, for [n <= 128]; above, the sum
    of the two halves, the first one of a length that is a multiple of
    eight *)
Fixpoint blocks8 (k : nat) (a : list num) : list (list num) :=
  match k with
  | 0 => []
  | S k => take 8 a :: blocks8 k (drop 8 a)
  end.

Definition add_accumulators (r : list num) : num :=
  match r with
  | [r0; r1; r2; r3; r4; r5; r6; r7] =>
      fadd (fadd (fadd r0 r1) (fadd r2 r3)) (fadd (fadd r4 r5) (fadd r6 r7))
  | _ => of_int 0
  end.

Definition sum_block (a : list num) : num :=
  let k := Nat.div (length a) 8 in
  let r := foldl (vv fadd) (take 8 a) (blocks8 (k - 1) (drop 8 a)) in
  foldl fadd (add_accumulators r) (drop (8 * k) a).

(** The recursion halves the length; [fuel] bounds its depth and never
    runs out when it is the length ([pairwise_sum_fuel_enough]). *)
Fixpoint pairwise_sum_fuel (fuel : nat) (a : list num) : num :=
  let n := length a in
  if n <? 8 then foldl fadd (of_int 0) a
  else if n <=? 128 then sum_block a
  else
    match fuel with
    | 0 => of_int 0
    | S fuel =>
        let n2 := Nat.div n 2 - Nat.modulo (Nat.div n 2) 8 in
        fadd (pairwise_sum_fuel fuel (take n2 a))
             (pairwise_sum_fuel fuel (drop n2 a))
    end.

Definition pairwise_sum (a : list num) : num :=
  pairwise_sum_fuel (length a) a.

(** the sum over the summands [s] of one column: [single] when the column
    is the only one of its matrix *)
Definition sum_samples (single : bool) (s : list num) : num :=
  if single then fadd (of_int 0) (pairwise_sum s)
  else foldl fadd (of_int 0) s.

Definition sum_axis0 (ncols : nat) (m : list (list num)) : list num :=
  if bool_decide (ncols = 1)
  then [fadd (of_int 0) (pairwise_sum (concat m))]
  else foldl (vv fadd) (replicate ncols (of_int 0)) m.

(** [da.where(cond, a, b)] *)
Definition da_where (cond : list bool) (a b : list num) : list num :=
  zip_with (λ (t : bool) (ab : num * num), if t then ab.1 else ab.2)
           cond (zip a b).

(** [da.arange(n)], already as floats *)
Definition arange (n : Z) : list num :=
  (λ j : nat, of_int (Z.of_nat j)) <$> seq 0 (Z.to_nat n).

(** [da.max] and [da.min] of a one-dimensional array *)
Definition da_max (v : list num) : result num :=
  match v with
  | [] => Raise ZeroSizeReduction
  | x :: t => Ok (foldl fmaximum x t)
  end.
Definition da_min (v : list num) : result num :=
  match v with
  | [] => Raise ZeroSizeReduction
  | x :: t => Ok (foldl fminimum x t)
  end.

Definition lift {A} (r : result A) : M A :=
  match r with Ok a => ret a | Raise e => raise e end.

(** ** The input checks (lines 16-26)

    What the checks of the kernel decide, as a function of the contents
    of the input array. *)

Definition check_inputs (ell : list num) (eccentricity : num) (N_it : Z)
  : result unit :=
  if fle eccentricity (of_int 0) then Raise EccentricityNotPositive
  else if fle (of_int 1) eccentricity then Raise EccentricityNotBelowOne
  else
    match da_max ell with
    | Raise e => Raise e
    | Ok mx =>
      if flt (fmul (of_int 2) np_pi) mx then Raise MeanAnomalyRange
      else
        match da_min ell with
        | Raise e => Raise e
        | Ok mn =>
          if flt mn (of_int 0) then Raise MeanAnomalyRange
          else if (N_it <? 2)%Z then Raise TooFewPoints
          else Ok tt
        end
    end.

(** ** The kernel (lines 28-116)

    One line of the source per line: a right-hand side builds a new array
    object, an augmented assignment writes into the object its left-hand
    side refers to.  Variables hold references; the scalars ([radius],
    [esinRadius], [ecosRadius], the ints) are immutable values. *)

Definition compute_contour (ell_array : loc) (eccentricity : num) (N_it : Z)
  : M loc :=
  (* Check inputs *)
  _ ← (if fle eccentricity (of_int 0) then raise EccentricityNotPositive
       else if fle (of_int 1) eccentricity then raise EccentricityNotBelowOne
       else ret tt);
  mx ← (l ← load_vec ell_array; lift (da_max l));
  _ ← (if flt (fmul (of_int 2) np_pi) mx then raise MeanAnomalyRange
       else ret tt);
  mn ← (l ← load_vec ell_array; lift (da_min l));
  _ ← (if flt mn (of_int 0) then raise MeanAnomalyRange else ret tt);
  _ ← (if (N_it <? 2)%Z then raise TooFewPoints else ret tt);
  (* Define sampling points *)
  let N_points := (N_it - 2)%Z in
  let N_fft := ((N_it - 1) * 2)%Z in
  (* Define contour radius *)
  let radius := fdiv eccentricity (of_int 2) in
  (* Generate e^{ikx} sampling points and precompute real and imaginary parts *)
  j_arr ← alloc (Vec (arange N_points));
  freq ← (j ← load_vec j_arr;
          alloc (Col (vs fdiv (sv fmul (fmul (of_int 2) np_pi)
                                 (vs fadd j (of_int 1))) (of_int N_fft))));
  exp2R ← (f ← load_col freq; alloc (Col (fcos <$> f)));
  exp2I ← (f ← load_col freq; alloc (Col (fsin <$> f)));
  ecosR ← (c ← load_col exp2R;
           alloc (Col (sv fmul eccentricity (fcos <$> sv fmul radius c))));
  esinR ← (c ← load_col exp2R;
           alloc (Col (sv fmul eccentricity (fsin <$> sv fmul radius c))));
  exp4R ← (c ← load_col exp2R; s ← load_col exp2I;
           alloc (Col (vv fsub (vv fmul c c) (vv fmul s s))));
  exp4I ← (c ← load_col exp2R; s ← load_col exp2I;
           alloc (Col (vv fmul (sv fmul (of_int 2) c) s)));
  coshI ← (s ← load_col exp2I; alloc (Col (fcosh <$> sv fmul radius s)));
  sinhI ← (s ← load_col exp2I; alloc (Col (fsinh <$> sv fmul radius s)));
  (* Precompute e sin(e/2) and e cos(e/2) *)
  let esinRadius := fmul eccentricity (fsin radius) in
  let ecosRadius := fmul eccentricity (fcos radius) in
  (* Define contour center for each ell and precompute sin(center), cos(center) *)
  center ← (l ← load_vec ell_array;
            alloc (Vec (vs fsub l (fdiv eccentricity (of_int 2)))));
  center ← (l ← load_vec ell_array; c ← load_vec center;
            alloc (Vec (da_where ((λ x, flt x np_pi) <$> l)
                                 (vs fadd c eccentricity) c)));
  sinC ← (c ← load_vec center; alloc (Vec (fsin <$> c)));
  cosC ← (c ← load_vec center; alloc (Vec (fcos <$> c)));
  let output := center in
  (* j = 0 piece *)
  zR ← (c ← load_vec center; alloc (Vec (vs fadd c radius)));
  tmpsin ← (s ← load_vec sinC; c ← load_vec cosC;
            alloc (Vec (vv fadd (vs fmul s ecosRadius) (vs fmul c esinRadius))));
  fxR ← (z ← load_vec zR; t ← load_vec tmpsin; l ← load_vec ell_array;
         alloc (Vec (vv fsub (vv fsub z t) l)));
  ft_gx2 ← (f ← load_vec fxR; alloc (Vec (sv fdiv half f)));
  ft_gx1 ← (f ← load_vec fxR; alloc (Vec (sv fdiv half f)));
  (* j = 1 to N_points pieces *)
  zR ← (c ← load_vec center; e2 ← load_col exp2R;
        alloc (Mat (length c) (vc fadd c (sv fmul radius e2))));
  zI ← (e2 ← load_col exp2I; alloc (Col (sv fmul radius e2)));
  tmpsin ← (s ← load_vec sinC; c ← load_vec cosC;
            ec ← load_col ecosR; es ← load_col esinR;
            alloc (Mat (length s) (mm fadd (vc fmul s ec) (vc fmul c es))));
  tmpcos ← (s ← load_vec sinC; c ← load_vec cosC;
            ec ← load_col ecosR; es ← load_col esinR;
            alloc (Mat (length c) (mm fsub (vc fmul c ec) (vc fmul s es))));
  fxR ← (z ← load_mat zR; t ← load_mat tmpsin; ch ← load_col coshI;
         l ← load_vec ell_array;
         alloc (Mat z.1 (mv fsub (mm fsub z.2 (mc fmul t.2 ch)) l)));
  fxI ← (z ← load_col zI; t ← load_mat tmpcos; sh ← load_col sinhI;
         alloc (Mat t.1 (cm fsub z (mc fmul t.2 sh))));
  (* Compute 1/f(z) *)
  ftmp ← (r ← load_mat fxR; i ← load_mat fxI;
          alloc (Mat r.1 (mm fadd (mm fmul r.2 r.2) (mm fmul i.2 i.2))));
  _ ← (r ← load_mat fxR; t ← load_mat ftmp;
       store fxR (Mat r.1 (mm fdiv r.2 t.2)));
  _ ← (i ← load_mat fxI; t ← load_mat ftmp;
       store fxI (Mat i.1 (mm fdiv i.2 t.2)));
  _ ← (g ← load_vec ft_gx2; e4r ← load_col exp4R; e4i ← load_col exp4I;
       r ← load_mat fxR; i ← load_mat fxI;
       store ft_gx2
         (Vec (vv fadd g (sum_axis0 r.1 (mm fadd (cm fmul e4r r.2)
                                                 (cm fmul e4i i.2))))));
  _ ← (g ← load_vec ft_gx1; e2r ← load_col exp2R; e2i ← load_col exp2I;
       r ← load_mat fxR; i ← load_mat fxI;
       store ft_gx1
         (Vec (vv fadd g (sum_axis0 r.1 (mm fadd (cm fmul e2r r.2)
                                                 (cm fmul e2i i.2))))));
  (* j = N_it piece *)
  zR ← (c ← load_vec center; alloc (Vec (vs fsub c radius)));
  tmpsin ← (s ← load_vec sinC; c ← load_vec cosC;
            alloc (Vec (vv fsub (vs fmul s ecosRadius) (vs fmul c esinRadius))));
  fxR ← (z ← load_vec zR; t ← load_vec tmpsin; l ← load_vec ell_array;
         alloc (Vec (vv fsub (vv fsub z t) l)));
  _ ← (g ← load_vec ft_gx2; f ← load_vec fxR;
       store ft_gx2 (Vec (vv fadd g (sv fdiv half f))));
  _ ← (g ← load_vec ft_gx1; f ← load_vec fxR;
       store ft_gx1 (Vec (vv fadd g (sv fdiv (fneg half) f))));
  (* Compute and return the solution E(ell,e) *)
  _ ← (o ← load_vec output; g2 ← load_vec ft_gx2; g1 ← load_vec ft_gx1;
       store output (Vec (vv fadd o (vv fdiv (sv fmul radius g2) g1))));
  ret output.

End Kernel.

(** * Running the kernel *)

Section Run.
Context `{Arith}.

(** ** One step of the store *)

Lemma run_alloc {B} (a : ndarray) (k : loc → M B) (h t : heap) :
  bind (alloc a) k (h ++ t) = k (length h + length t) (h ++ (t ++ [a])).
Proof.
  unfold bind, alloc. by rewrite length_app, (assoc_L (++)).
Qed.

Lemma run_store {B} (i : nat) (a : ndarray) (k : unit → M B) (h t : heap) :
  bind (store (length h + i) a) k (h ++ t) = k tt (h ++ <[i := a]> t).
Proof.
  unfold bind, store. by rewrite insert_app_r.
Qed.

Lemma run_load {B} (i : nat) (a : ndarray) (k : ndarray → M B) (h t : heap) :
  t !! i = Some a →
  bind (load (length h + i)) k (h ++ t) = k a (h ++ t).
Proof.
  intros Hi. unfold bind, load.
  by rewrite lookup_app_r, Nat.add_comm, Nat.add_sub, Hi by lia.
Qed.

Lemma run_load_old {B} (l : loc) (a : ndarray) (k : ndarray → M B) (h t : heap) :
  h !! l = Some a →
  bind (load l) k (h ++ t) = k a (h ++ t).
Proof.
  intros Hl. unfold bind, load. by rewrite (lookup_app_l_Some _ _ _ _ Hl).
Qed.

Lemma bind_assoc {A B C} (m : M A) (k1 : A → M B) (k2 : B → M C) (h : heap) :
  bind (bind m k1) k2 h = bind m (λ a, bind (k1 a) k2) h.
Proof. unfold bind. by destruct (m h) as [[a|e] h']. Qed.

Lemma bind_ret {A B} (a : A) (k : A → M B) (h : heap) :
  bind (ret a) k h = k a h.
Proof. reflexivity. Qed.

End Run.

Section RunLoads.
Context `{Arith}.

Lemma run_load_vec {B} (i : nat) (v : list num) (k : list num → M B)
    (h t : heap) :
  t !! i = Some (Vec v) →
  bind (load_vec (length h + i)) k (h ++ t) = k v (h ++ t).
Proof.
  intros Hi. unfold load_vec, mbind, M_bind.
  by rewrite bind_assoc, (run_load _ _ _ _ _ Hi).
Qed.

Lemma run_load_col {B} (i : nat) (c : list num) (k : list num → M B)
    (h t : heap) :
  t !! i = Some (Col c) →
  bind (load_col (length h + i)) k (h ++ t) = k c (h ++ t).
Proof.
  intros Hi. unfold load_col, mbind, M_bind.
  by rewrite bind_assoc, (run_load _ _ _ _ _ Hi).
Qed.

Lemma run_load_mat {B} (i n : nat) (m : list (list num))
    (k : nat * list (list num) → M B) (h t : heap) :
  t !! i = Some (Mat n m) →
  bind (load_mat (length h + i)) k (h ++ t) = k (n, m) (h ++ t).
Proof.
  intros Hi. unfold load_mat, mbind, M_bind.
  by rewrite bind_assoc, (run_load _ _ _ _ _ Hi).
Qed.

Lemma run_load_vec_old {B} (l : loc) (v : list num) (k : list num → M B)
    (h t : heap) :
  h !! l = Some (Vec v) →
  bind (load_vec l) k (h ++ t) = k v (h ++ t).
Proof.
  intros Hl. unfold load_vec, mbind, M_bind.
  by rewrite bind_assoc, (run_load_old _ _ _ _ _ Hl).
Qed.

End RunLoads.

(** * From whole arrays to single elements

    Every array of the kernel is a function of its index: of the element
    of [ell_array] for shape [(n,)], of the sampling index for shape
    [(N_points,1)], of both for a matrix. *)

Section Pointwise.
Context `{Arith}.

(** the matrix whose entry [(j, i)] is [F j (l !! i)] *)
Definition tab (F : nat → num → num) (js : list nat) (l : list num)
  : list (list num) :=
  (λ j, F j <$> l) <$> js.

Lemma vs_fmap {A} op (f : A → num) (l : list A) s :
  vs op (f <$> l) s = (λ x, op (f x) s) <$> l.
Proof. unfold vs. by rewrite <- list_fmap_compose. Qed.

Lemma sv_fmap {A} op s (f : A → num) (l : list A) :
  sv op s (f <$> l) = (λ x, op s (f x)) <$> l.
Proof. unfold sv. by rewrite <- list_fmap_compose. Qed.

Lemma fmap_fmap {A B C} (g : B → C) (f : A → B) (l : list A) :
  g <$> (f <$> l) = (λ x, g (f x)) <$> l.
Proof. by rewrite <- list_fmap_compose. Qed.

Lemma vv_fmap {A} op (f g : A → num) (l : list A) :
  vv op (f <$> l) (g <$> l) = (λ x, op (f x) (g x)) <$> l.
Proof. unfold vv. induction l; simpl; by f_equal. Qed.

Lemma da_where_fmap (b : num → bool) (f g : num → num) (l : list num) :
  da_where (b <$> l) (f <$> l) (g <$> l)
  = (λ x, if b x then f x else g x) <$> l.
Proof. unfold da_where. induction l; simpl; by f_equal. Qed.

Lemma vc_fmap op (f : num → num) (g : nat → num) l js :
  vc op (f <$> l) (g <$> js) = tab (λ j x, op (f x) (g j)) js l.
Proof.
  unfold vc, tab. rewrite <- list_fmap_compose.
  apply list_fmap_ext. intros _ j _. simpl. apply vs_fmap.
Qed.

Lemma mm_tab op (F G : nat → num → num) js l :
  mm op (tab F js l) (tab G js l) = tab (λ j x, op (F j x) (G j x)) js l.
Proof.
  unfold mm, tab. induction js; simpl; [done|]. f_equal; [apply vv_fmap | apply IHjs].
Qed.

Lemma mc_tab op (F : nat → num → num) (g : nat → num) js l :
  mc op (tab F js l) (g <$> js) = tab (λ j x, op (F j x) (g j)) js l.
Proof.
  unfold mc, tab. induction js; simpl; [done|]. f_equal; [apply vs_fmap | apply IHjs].
Qed.

Lemma cm_tab op (g : nat → num) (F : nat → num → num) js l :
  cm op (g <$> js) (tab F js l) = tab (λ j x, op (g j) (F j x)) js l.
Proof.
  unfold cm, tab. induction js; simpl; [done|]. f_equal; [apply sv_fmap | apply IHjs].
Qed.

Lemma mv_tab op (F : nat → num → num) (f : num → num) js l :
  mv op (tab F js l) (f <$> l) = tab (λ j x, op (F j x) (f x)) js l.
Proof.
  unfold mv, tab. rewrite <- list_fmap_compose.
  apply list_fmap_ext. intros _ j _. simpl. apply vv_fmap.
Qed.

Lemma foldl_vv_tab (a : num → num) (F : nat → num → num) js l :
  foldl (vv fadd) (a <$> l) (tab F js l)
  = (λ x, foldl fadd (a x) ((λ j, F j x) <$> js)) <$> l.
Proof.
  unfold tab. revert a. induction js as [|j js IH]; intros a; simpl; [done|].
  by rewrite vv_fmap, IH.
Qed.

(** the array has exactly one element: the matrices of the call then have
    one column *)
Definition one_column (l : list num) : bool := bool_decide (length l = 1).

Lemma sum_axis0_tab (F : nat → num → num) js l :
  sum_axis0 (length l) (tab F js l)
  = (λ x, sum_samples (one_column l) ((λ j, F j x) <$> js)) <$> l.
Proof.
  unfold sum_axis0, sum_samples, one_column. case_bool_decide as Hl.
  - destruct l as [|x [|y l]]; try done. cbn [fmap list_fmap].
    do 3 f_equal. unfold tab. induction js as [|j js IH]; [done|].
    cbn [fmap list_fmap concat app] in *. by rewrite IH.
  - replace (replicate (length l) (of_int 0)) with ((λ _, of_int 0) <$> l).
    + apply foldl_vv_tab.
    + clear Hl. induction l; simpl; by f_equal.
Qed.


End Pointwise.

(** ** What [np.sum] adds

    Whatever the order, the result is a sum of the summands: every
    summand enters it exactly once. *)

Section Summation.
Context `{Arith}.

(** [summation l v]: [v] is obtained from the numbers [l] and literal
    zeros by additions, every number of [l] being used once *)
Inductive summation : list num → num → Prop :=
  | summation_zero : summation [] (of_int 0)
  | summation_one (x : num) : summation [x] x
  | summation_add (l1 l2 : list num) (v1 v2 : num) :
      summation l1 v1 → summation l2 v2 → summation (l1 ++ l2) (fadd v1 v2)
  | summation_perm (l l' : list num) (v : num) :
      l ≡ₚ l' → summation l v → summation l' v.

Lemma summation_foldl (rest l : list num) (v : num) :
  summation l v → summation (l ++ rest) (foldl fadd v rest).
Proof.
  revert l v. induction rest as [|x rest IH]; intros l v Hv; simpl.
  - by rewrite app_nil_r.
  - rewrite (cons_middle x l rest), (assoc_L (++)).
    apply IH, summation_add; [done|constructor].
Qed.

Lemma blocks8_length (k : nat) (a : list num) :
  8 * k ≤ length a → Forall (λ b, length b = 8) (blocks8 k a).
Proof.
  revert a. induction k as [|k IH]; intros a Ha; simpl; [done|].
  apply Forall_cons. split.
  - rewrite length_take. lia.
  - apply IH. rewrite length_drop. lia.
Qed.

Lemma blocks8_concat (k : nat) (a : list num) :
  concat (blocks8 k a) = take (8 * k) a.
Proof.
  revert a. induction k as [|k IH]; intros a; simpl; [done|].
  rewrite IH, take_take_drop. f_equal. lia.
Qed.

(** one round of the eight accumulators *)
Lemma accumulate_block (ls : list (list num)) (r b : list num) :
  Forall2 summation ls r → length b = length r →
  ∃ ls', Forall2 summation ls' (vv fadd r b)
         ∧ concat ls' ≡ₚ concat ls ++ b.
Proof.
  intros Hs. revert b.
  induction Hs as [|l v ls r Hl Hs IH]; intros b Hb.
  - destruct b; [|done]. exists []. split; [constructor|done].
  - destruct b as [|x b]; [done|]. simpl in Hb.
    destruct (IH b) as (ls' & Hs' & Hp); [lia|].
    exists ((l ++ [x]) :: ls'). split.
    + constructor; [|done]. apply summation_add; [done|constructor].
    + cbn [concat]. rewrite Hp, <- !(assoc_L (++)). apply Permutation_app_head.
      cbn [app]. by rewrite Permutation_middle.
Qed.

Lemma accumulate_blocks (bs : list (list num)) (ls : list (list num))
    (r : list num) :
  Forall2 summation ls r → Forall (λ b, length b = length r) bs →
  ∃ ls', Forall2 summation ls' (foldl (vv fadd) r bs)
         ∧ concat ls' ≡ₚ concat ls ++ concat bs.
Proof.
  revert ls r. induction bs as [|b bs IH]; intros ls r Hs Hbs; simpl.
  - exists ls. by rewrite app_nil_r.
  - apply Forall_cons in Hbs as [Hb Hbs].
    destruct (accumulate_block ls r b Hs Hb) as (ls1 & Hs1 & Hp1).
    destruct (IH ls1 (vv fadd r b) Hs1) as (ls' & Hs' & Hp').
    + eapply Forall_impl; [exact Hbs|]. intros c Hc. cbn beta in *.
      unfold vv. rewrite length_zip_with. lia.
    + exists ls'. split; [done|]. by rewrite Hp', Hp1, (assoc_L (++)).
Qed.

Lemma accumulators_length (bs : list (list num)) (r : list num) :
  Forall (λ b, length b = length r) bs →
  length (foldl (vv fadd) r bs) = length r.
Proof.
  revert r. induction bs as [|b bs IH]; intros r Hbs; simpl; [done|].
  apply Forall_cons in Hbs as [Hb Hbs].
  assert (length (vv fadd r b) = length r) as Hr
    by (unfold vv; rewrite length_zip_with; lia).
  rewrite IH; [done|]. eapply Forall_impl; [exact Hbs|].
  intros c Hc. cbn beta in *. lia.
Qed.

Lemma add_accumulators_summation (ls : list (list num)) (r : list num) :
  Forall2 summation ls r → length r = 8 →
  summation (concat ls) (add_accumulators r).
Proof.
  intros Hs Hr.
  destruct r as [|r0 [|r1 [|r2 [|r3 [|r4 [|r5 [|r6 [|r7 [|]]]]]]]]]; try done.
  repeat match goal with
         | H : Forall2 _ _ (_ :: _) |- _ =>
             apply Forall2_cons_inv_r in H as (? & ? & ? & ? & ->)
         | H : Forall2 _ _ [] |- _ => apply Forall2_nil_inv_r in H as ->
         end.
  cbn [concat add_accumulators]. rewrite app_nil_r.
  rewrite !(assoc_L (++)).
  repeat match goal with
         | |- summation (_ ++ _) _ => rewrite <- (assoc_L (++))
         end.
  eapply summation_perm; [|repeat apply summation_add; eassumption].
  by rewrite <- !(assoc_L (++)).
Qed.

Lemma sum_block_summation (a : list num) :
  8 ≤ length a → summation a (sum_block a).
Proof.
  intros Ha. unfold sum_block.
  set (k := Nat.div (length a) 8).
  assert (1 ≤ k ∧ 8 * k ≤ length a) as [Hk1 Hk].
  { pose proof (Nat.div_mod_eq (length a) 8).
    pose proof (Nat.mod_upper_bound (length a) 8). subst k. lia. }
  assert (Forall (λ b, length b = length (take 8 a))
            (blocks8 (k - 1) (drop 8 a))) as Hbs.
  { eapply Forall_impl; [apply blocks8_length|].
    - rewrite length_drop. lia.
    - intros b Hb. cbn beta in *. rewrite length_take. lia. }
  destruct (accumulate_blocks (blocks8 (k - 1) (drop 8 a))
              ((λ x, [x]) <$> take 8 a) (take 8 a)) as (ls & Hs & Hp).
  - apply Forall2_fmap_l, Forall_Forall2_diag, Forall_forall.
    intros x _. constructor.
  - done.
  - rewrite <- (take_drop (8 * k) a) at 1. apply summation_foldl.
    eapply summation_perm; [|apply (add_accumulators_summation ls)].
    + rewrite Hp, blocks8_concat.
      replace (concat ((λ x, [x]) <$> take 8 a)) with (take 8 a).
      * rewrite take_take_drop. by replace (8 + 8 * (k - 1)) with (8 * k) by lia.
      * generalize (take 8 a). intros l. induction l; simpl; by f_equal.
    + done.
    + rewrite (accumulators_length _ _ Hbs), length_take. lia.
Qed.

Lemma halves_shorter (n : nat) :
  128 < n →
  Nat.div n 2 - Nat.modulo (Nat.div n 2) 8 < n
  ∧ n - (Nat.div n 2 - Nat.modulo (Nat.div n 2) 8) < n.
Proof.
  intros Hn. pose proof (Nat.div_mod_eq n 2).
  pose proof (Nat.mod_upper_bound n 2).
  pose proof (Nat.mod_upper_bound (Nat.div n 2) 8). lia.
Qed.

(** The fuel does not run out: from the length of the list up, every
    amount of fuel gives the same sum. *)
Lemma pairwise_sum_fuel_enough (fuel : nat) (a : list num) :
  length a ≤ 128 + fuel → pairwise_sum_fuel fuel a = pairwise_sum a.
Proof.
  unfold pairwise_sum.
  enough (∀ f1 f2 (b : list num), length b ≤ 128 + f1 → length b ≤ 128 + f2 →
            pairwise_sum_fuel f1 b = pairwise_sum_fuel f2 b) as Hen
    by (intros; apply Hen; lia).
  clear. induction f1 as [|f1 IH]; intros f2 b H1 H2;
    destruct f2 as [|f2]; cbn [pairwise_sum_fuel];
    destruct (Nat.ltb_spec (length b) 8); try done;
    destruct (Nat.leb_spec (length b) 128); try done; try lia.
  destruct (halves_shorter (length b)) as [Hl Hr]; [done|].
  f_equal; apply IH; rewrite ?length_take, ?length_drop; lia.
Qed.

Lemma pairwise_sum_summation (a : list num) : summation a (pairwise_sum a).
Proof.
  unfold pairwise_sum.
  enough (∀ fuel (b : list num), length b ≤ 128 + fuel →
            summation b (pairwise_sum_fuel fuel b)) as Hen
    by (apply Hen; lia).
  clear. induction fuel as [|fuel IH]; intros b Hb; cbn [pairwise_sum_fuel];
    destruct (Nat.ltb_spec (length b) 8);
    try (apply (summation_foldl b []); constructor);
    destruct (Nat.leb_spec (length b) 128);
    try (by apply sum_block_summation); try lia.
  destruct (halves_shorter (length b)) as [Hl Hr]; [done|].
  set (n2 := Nat.div (length b) 2 - Nat.modulo (Nat.div (length b) 2) 8) in *.
  rewrite <- (take_drop n2 b) at 1.
  apply summation_add; apply IH; rewrite ?length_take, ?length_drop; lia.
Qed.

Lemma sum_samples_summation (single : bool) (s : list num) :
  summation s (sum_samples single s).
Proof.
  unfold sum_samples. destruct single.
  - apply (summation_add [] s); [constructor|apply pairwise_sum_summation].
  - apply (summation_foldl s []). constructor.
Qed.

End Summation.

(** ** The kernel at one element

    The entries of the arrays of [compute_contour], under the names the
    source gives the arrays: [j] is the index into [j_arr], [ell] one
    element of [ell_array]. *)

Section Point.
Context `{Arith}.
Variable eccentricity : num.
Variable N_it : Z.

Definition N_points : Z := N_it - 2.
Definition N_fft : Z := (N_it - 1) * 2.
Definition radius : num := fdiv eccentricity (of_int 2).

Definition j_arr : list nat := seq 0 (Z.to_nat N_points).

Definition freq (j : nat) : num :=
  fdiv (fmul (fmul (of_int 2) np_pi) (fadd (of_int (Z.of_nat j)) (of_int 1)))
       (of_int N_fft).
Definition exp2R (j : nat) : num := fcos (freq j).
Definition exp2I (j : nat) : num := fsin (freq j).
Definition ecosR (j : nat) : num := fmul eccentricity (fcos (fmul radius (exp2R j))).
Definition esinR (j : nat) : num := fmul eccentricity (fsin (fmul radius (exp2R j))).
Definition exp4R (j : nat) : num :=
  fsub (fmul (exp2R j) (exp2R j)) (fmul (exp2I j) (exp2I j)).
Definition exp4I (j : nat) : num := fmul (fmul (of_int 2) (exp2R j)) (exp2I j).
Definition coshI (j : nat) : num := fcosh (fmul radius (exp2I j)).
Definition sinhI (j : nat) : num := fsinh (fmul radius (exp2I j)).

Definition esinRadius : num := fmul eccentricity (fsin radius).
Definition ecosRadius : num := fmul eccentricity (fcos radius).

Definition center (ell : num) : num :=
  if flt ell np_pi
  then fadd (fsub ell (fdiv eccentricity (of_int 2))) eccentricity
  else fsub ell (fdiv eccentricity (of_int 2)).
Definition sinC (ell : num) : num := fsin (center ell).
Definition cosC (ell : num) : num := fcos (center ell).

(** the [j = 0] piece: [fxR] at the right edge *)
Definition fxR_right (ell : num) : num :=
  fsub (fsub (fadd (center ell) radius)
             (fadd (fmul (sinC ell) ecosRadius) (fmul (cosC ell) esinRadius)))
       ell.

(** the pieces [j = 1 .. N_points], before the division by [ftmp] *)
Definition fxR (j : nat) (ell : num) : num :=
  fsub (fsub (fadd (center ell) (fmul radius (exp2R j)))
             (fmul (fadd (fmul (sinC ell) (ecosR j)) (fmul (cosC ell) (esinR j)))
                   (coshI j)))
       ell.
Definition fxI (j : nat) (ell : num) : num :=
  fsub (fmul radius (exp2I j))
       (fmul (fsub (fmul (cosC ell) (ecosR j)) (fmul (sinC ell) (esinR j)))
             (sinhI j)).
Definition ftmp (j : nat) (ell : num) : num :=
  fadd (fmul (fxR j ell) (fxR j ell)) (fmul (fxI j ell) (fxI j ell)).

(** the summands of the two [np.sum], after [fxR /= ftmp] and
    [fxI /= ftmp] *)
Definition summand_gx2 (j : nat) (ell : num) : num :=
  fadd (fmul (exp4R j) (fdiv (fxR j ell) (ftmp j ell)))
       (fmul (exp4I j) (fdiv (fxI j ell) (ftmp j ell))).
Definition summand_gx1 (j : nat) (ell : num) : num :=
  fadd (fmul (exp2R j) (fdiv (fxR j ell) (ftmp j ell)))
       (fmul (exp2I j) (fdiv (fxI j ell) (ftmp j ell))).

(** the [j = N_it] piece: [fxR] at the left edge *)
Definition fxR_left (ell : num) : num :=
  fsub (fsub (fsub (center ell) radius)
             (fsub (fmul (sinC ell) ecosRadius) (fmul (cosC ell) esinRadius)))
       ell.

(** the two accumulators and the result; [single] tells whether the
    element is the only one of its array, on which the order of the
    additions of [np.sum] depends *)
Variable single : bool.

Definition ft_gx2 (ell : num) : num :=
  fadd (fadd (fdiv half (fxR_right ell))
             (sum_samples single ((λ j, summand_gx2 j ell) <$> j_arr)))
       (fdiv half (fxR_left ell)).
Definition ft_gx1 (ell : num) : num :=
  fadd (fadd (fdiv half (fxR_right ell))
             (sum_samples single ((λ j, summand_gx1 j ell) <$> j_arr)))
       (fdiv (fneg half) (fxR_left ell)).

Definition output (ell : num) : num :=
  fadd (center ell) (fdiv (fmul radius (ft_gx2 ell)) (ft_gx1 ell)).

End Point.

(** ** The run of [compute_contour] *)

Ltac fuse :=
  repeat first
  [ rewrite vs_fmap | rewrite sv_fmap | rewrite fmap_fmap | rewrite vv_fmap
  | rewrite da_where_fmap | rewrite vc_fmap | rewrite mm_tab | rewrite mc_tab
  | rewrite cm_tab | rewrite mv_tab | rewrite sum_axis0_tab
  | rewrite length_fmap ].

Ltac name_new :=
  lazymatch goal with
  | |- bind (alloc (Vec (?f <$> _))) _ _ = _ → _ =>
      let f' := fresh "f" in set (f' := f)
  | |- bind (alloc (Col (?f <$> _))) _ _ = _ → _ =>
      let f' := fresh "g" in set (f' := f)
  | |- bind (alloc (Mat _ (tab ?f _ _))) _ _ = _ → _ =>
      let f' := fresh "F" in set (f' := f)
  | |- bind (store _ (Vec (?f <$> _))) _ _ = _ → _ =>
      let f' := fresh "f" in set (f' := f)
  | |- bind (store _ (Mat _ (tab ?f _ _))) _ _ = _ → _ =>
      let f' := fresh "F" in set (f' := f)
  end.

Ltac step h0 Hl :=
  first
  [ rewrite bind_assoc
  | erewrite run_load_vec by reflexivity
  | erewrite run_load_col by reflexivity
  | erewrite run_load_mat by reflexivity
  | erewrite (run_load_vec_old _ _ _ h0) by exact Hl
  | progress cbn [fst snd]
  | progress fuse
  | name_new; first [ rewrite run_alloc; cbn [length app Nat.add]
                    | rewrite run_store; cbn [insert list_insert] ] ].

Section RunKernel.
Context `{Arith}.

(** The 29 array objects of a call, in the order of their creation and
    with the contents they have when the call returns: the objects of
    [output] (which is [center]), [ft_gx2], [ft_gx1] and the matrices
    [fxR], [fxI] have been written in place. *)
Definition arrays_of_call (e : num) (n : Z) (ell : list num) : heap :=
  let js := j_arr n in
  let single := one_column ell in
  [ Vec ((λ j : nat, of_int (Z.of_nat j)) <$> js);           (* j_arr *)
    Col (freq n <$> js);
    Col (exp2R n <$> js);
    Col (exp2I n <$> js);
    Col (ecosR e n <$> js);
    Col (esinR e n <$> js);
    Col (exp4R n <$> js);
    Col (exp4I n <$> js);
    Col (coshI e n <$> js);
    Col (sinhI e n <$> js);
    Vec ((λ x, fsub x (fdiv e (of_int 2))) <$> ell);          (* center, line 52 *)
    Vec (output e n single <$> ell);                          (* center = output *)
    Vec (sinC e <$> ell);
    Vec (cosC e <$> ell);
    Vec ((λ x, fadd (center e x) (radius e)) <$> ell);        (* zR, line 64 *)
    Vec ((λ x, fadd (fmul (sinC e x) (ecosRadius e))
                    (fmul (cosC e x) (esinRadius e))) <$> ell);
    Vec (fxR_right e <$> ell);
    Vec (ft_gx2 e n single <$> ell);
    Vec (ft_gx1 e n single <$> ell);
    Mat (length ell)                                          (* zR, line 79 *)
        (tab (λ j x, fadd (center e x) (fmul (radius e) (exp2R n j))) js ell);
    Col ((λ j, fmul (radius e) (exp2I n j)) <$> js);          (* zI *)
    Mat (length ell)
        (tab (λ j x, fadd (fmul (sinC e x) (ecosR e n j))
                          (fmul (cosC e x) (esinR e n j))) js ell);
    Mat (length ell)
        (tab (λ j x, fsub (fmul (cosC e x) (ecosR e n j))
                          (fmul (sinC e x) (esinR e n j))) js ell);
    Mat (length ell)                                          (* fxR /= ftmp *)
        (tab (λ j x, fdiv (fxR e n j x) (ftmp e n j x)) js ell);
    Mat (length ell)                                          (* fxI /= ftmp *)
        (tab (λ j x, fdiv (fxI e n j x) (ftmp e n j x)) js ell);
    Mat (length ell) (tab (ftmp e n) js ell);
    Vec ((λ x, fsub (center e x) (radius e)) <$> ell);        (* zR, line 101 *)
    Vec ((λ x, fsub (fmul (sinC e x) (ecosRadius e))
                    (fmul (cosC e x) (esinRadius e))) <$> ell);
    Vec (fxR_left e <$> ell) ].

(** A call whose checks pass creates these objects behind the store it
    was given, writes to nothing else, and returns the twelfth. *)
Lemma check_inputs_ok (ell : list num) (e : num) (n : Z) :
  check_inputs ell e n = Ok tt →
  fle e (of_int 0) = false ∧ fle (of_int 1) e = false
  ∧ ∃ mx mn, da_max ell = Ok mx ∧ da_min ell = Ok mn
      ∧ flt (fmul (of_int 2) np_pi) mx = false
      ∧ flt mn (of_int 0) = false ∧ (n <? 2)%Z = false.
Proof.
  unfold check_inputs.
  destruct (fle e (of_int 0)); [discriminate|].
  destruct (fle (of_int 1) e); [discriminate|].
  destruct (da_max ell) as [mx|]; [|discriminate].
  destruct (flt (fmul (of_int 2) np_pi) mx) eqn:Hgt; [discriminate|].
  destruct (da_min ell) as [mn|]; [|discriminate].
  destruct (flt mn (of_int 0)) eqn:Hlt; [discriminate|].
  destruct (n <? 2)%Z; [discriminate|]. intros _.
  split; [reflexivity|]. split; [reflexivity|]. exists mx, mn.
  split; [reflexivity|]. split; [reflexivity|].
  split; [exact Hgt|]. split; [exact Hlt|reflexivity].
Qed.

Lemma compute_contour_run (h : heap) (l : loc) (ell : list num)
    (e : num) (n : Z) :
  h !! l = Some (Vec ell) →
  check_inputs ell e n = Ok tt →
  compute_contour l e n h = (Ok (length h + 11), h ++ arrays_of_call e n ell).
Proof.
  intros Hl Hc. destruct (compute_contour l e n h) as [r h'] eqn:E. revert E.
  destruct (check_inputs_ok _ _ _ Hc)
    as (He0 & He1 & mx & mn & Hmx & Hmn & Hgt & Hlt & Hn).
  unfold compute_contour, mbind, M_bind.
  rewrite <- (app_nil_r h) at 1.
  rewrite <- (list_fmap_id ell) in Hl.
  rewrite He0, He1, bind_ret.
  step h Hl. step h Hl. rewrite list_fmap_id at 1. rewrite Hmx. cbn [lift].
  rewrite bind_ret, Hgt, bind_ret.
  step h Hl. step h Hl. rewrite list_fmap_id at 1. rewrite Hmn. cbn [lift].
  rewrite bind_ret, Hlt, bind_ret, Hn, bind_ret.
  unfold arange.
  repeat step h Hl.
  by intros [= <- <-].
Qed.

(** A call whose checks fail raises what the checks raise and leaves the
    store as it was. *)
Lemma compute_contour_raise (h : heap) (l : loc) (ell : list num)
    (e : num) (n : Z) (x : exn) :
  h !! l = Some (Vec ell) →
  check_inputs ell e n = Raise x →
  compute_contour l e n h = (Raise x, h).
Proof.
  intros Hl. unfold check_inputs, compute_contour, mbind, M_bind.
  rewrite <- (app_nil_r h) at 1 2.
  destruct (fle e (of_int 0)); [by intros [= <-]|].
  destruct (fle (of_int 1) e); [by intros [= <-]|].
  rewrite bind_ret, bind_assoc, (run_load_vec_old _ _ _ h [] Hl).
  destruct (da_max ell) as [mx|y]; [|by intros [= <-]].
  cbn [lift]. rewrite bind_ret.
  destruct (flt (fmul (of_int 2) np_pi) mx); [by intros [= <-]|].
  rewrite bind_ret, bind_assoc, (run_load_vec_old _ _ _ h [] Hl).
  destruct (da_min ell) as [mn|y]; [|by intros [= <-]].
  cbn [lift]. rewrite bind_ret.
  destruct (flt mn (of_int 0)); [by intros [= <-]|].
  rewrite bind_ret.
  destruct (n <? 2)%Z; [by intros [= <-]|done].
Qed.

(** A reference to no array of shape [(n,)]: the call raises, at the
    eccentricity checks or where it first reads the array. *)
Lemma compute_contour_no_vec (h : heap) (l : loc) (e : num) (n : Z) :
  (∀ ell, h !! l ≠ Some (Vec ell)) →
  ∃ x, compute_contour l e n h = (Raise x, h).
Proof.
  intros Hl. unfold compute_contour, mbind, M_bind.
  destruct (fle e (of_int 0)); [by eexists|].
  destruct (fle (of_int 1) e); [by eexists|].
  rewrite bind_ret, bind_assoc. unfold load_vec, mbind, M_bind.
  rewrite bind_assoc. unfold bind at 1, load.
  destruct (h !! l) as [[v|c|k m]|] eqn:E; try by eexists.
  by destruct (Hl v).
Qed.

End RunKernel.

(** ** The call as the specification sees it *)

Section Solve.
Context `{Arith}.

(** [solve(meanAnomaly, eccentricity, iterations)]: the input array is an
    object of the caller's store, the result is read from the object the
    call returns. *)
Definition read_back (rh : result loc * heap) : result (list num) :=
  match rh with
  | (Ok l, h) =>
      match h !! l with
      | Some (Vec out) => Ok out
      | _ => Raise NotThisShape
      end
  | (Raise x, _) => Raise x
  end.

Definition solve (meanAnomaly : list num) (eccentricity : num)
    (iterations : Z) : result (list num) :=
  read_back (compute_contour 0 eccentricity iterations [Vec meanAnomaly]).

(** What a call returns depends on the store only through the contents
    of the input array. *)
Lemma read_back_compute_contour (h : heap) (l : loc) (ell : list num)
    (e : num) (n : Z) :
  h !! l = Some (Vec ell) →
  read_back (compute_contour l e n h)
  = match check_inputs ell e n with
    | Ok _ => Ok (output e n (one_column ell) <$> ell)
    | Raise x => Raise x
    end.
Proof.
  intros Hl. destruct (check_inputs ell e n) as [[]|x] eqn:Hc.
  - rewrite (compute_contour_run _ _ _ _ _ Hl Hc). unfold read_back.
    by rewrite lookup_app_r, Nat.add_comm, Nat.add_sub by lia.
  - by rewrite (compute_contour_raise _ _ _ _ _ _ Hl Hc).
Qed.

Lemma solve_eq (ell : list num) (e : num) (n : Z) :
  solve ell e n
  = match check_inputs ell e n with
    | Ok _ => Ok (output e n (one_column ell) <$> ell)
    | Raise x => Raise x
    end.
Proof. by apply read_back_compute_contour. Qed.

Lemma solve_ok (ell : list num) (e : num) (n : Z) :
  check_inputs ell e n = Ok tt →
  solve ell e n = Ok (output e n (one_column ell) <$> ell).
Proof. intros Hc. by rewrite solve_eq, Hc. Qed.

Lemma solve_ok_inv (ell out : list num) (e : num) (n : Z) :
  solve ell e n = Ok out →
  check_inputs ell e n = Ok tt ∧ out = output e n (one_column ell) <$> ell.
Proof.
  rewrite solve_eq. destruct (check_inputs ell e n) as [[]|x]; [|done].
  by intros [= <-].
Qed.

End Solve.

(** * Properties of every arithmetic

    Nothing in this part uses a law of the arithmetic, not even that the
    order of additions is immaterial: the statements hold of binary64,
    bit for bit, as they hold of the real numbers. *)

Section Frame.
Context `{Arith}.

(** A call leaves every object of the store it was given as it was, and
    what it returns is an object that store did not have. *)
Lemma compute_contour_frame (h : heap) (l : loc) (e : num) (n : Z) :
  ∃ tmp : heap,
    (compute_contour l e n h).2 = h ++ tmp
    ∧ match (compute_contour l e n h).1 with
      | Ok l' => ∃ out, length h ≤ l' ∧ (h ++ tmp) !! l' = Some (Vec out)
      | Raise _ => tmp = []
      end.
Proof.
  destruct (h !! l) as [a|] eqn:Hl.
  2: { exists []. destruct (compute_contour_no_vec h l e n) as [x ->];
         [intros ?; congruence|]. by rewrite app_nil_r. }
  destruct a as [ell|c|k m].
  2,3: exists []; destruct (compute_contour_no_vec h l e n) as [x ->];
       [intros ?; congruence|]; by rewrite app_nil_r.
  destruct (check_inputs ell e n) as [[]|x] eqn:Hc.
  - exists (arrays_of_call e n ell).
    rewrite (compute_contour_run _ _ _ _ _ Hl Hc). cbn [fst snd].
    split; [done|]. eexists. split; [lia|].
    by rewrite lookup_app_r, Nat.add_comm, Nat.add_sub by lia.
  - exists []. rewrite (compute_contour_raise _ _ _ _ _ _ Hl Hc).
    by rewrite app_nil_r.
Qed.

(** the caller of the claim on partitions: every chunk solved by a call of
    its own, the results concatenated in order *)
Fixpoint solve_chunks (chunks : list (list num)) (e : num) (n : Z)
  : result (list num) :=
  match chunks with
  | [] => Ok []
  | c :: cs =>
      match solve c e n with
      | Raise x => Raise x
      | Ok o =>
          match solve_chunks cs e n with
          | Raise x => Raise x
          | Ok os => Ok (o ++ os)
          end
      end
  end.




(** C5. A call is a function of the contents of the input array, the
    eccentricity and the iteration count: in whatever store and under
    whatever reference the same array is given, the result read back is
    the same, also from a second call made after the first; and the call
    changes no object of the store it was given. *)
Theorem solve_deterministic_and_pure (h1 h2 : heap) (l1 l2 : loc)
    (ell : list num) (e : num) (n : Z) :
  h1 !! l1 = Some (Vec ell) →
  h2 !! l2 = Some (Vec ell) →
  read_back (compute_contour l1 e n h1) = solve ell e n
  ∧ read_back (compute_contour l2 e n h2) = solve ell e n
  ∧ read_back (compute_contour l1 e n (compute_contour l1 e n h1).2)
    = read_back (compute_contour l1 e n h1)
  ∧ (∀ l0 a, h1 !! l0 = Some a → (compute_contour l1 e n h1).2 !! l0 = Some a).
Proof.
  intros H1 H2.
  destruct (compute_contour_frame h1 l1 e n) as (tmp & Hh & _).
  rewrite (read_back_compute_contour _ _ _ _ _ H1).
  rewrite (read_back_compute_contour _ _ _ _ _ H2).
  rewrite solve_eq. repeat split.
  - apply read_back_compute_contour. rewrite Hh.
    by apply lookup_app_l_Some.
  - intros l0 a Ha. rewrite Hh. by apply lookup_app_l_Some.
Qed.

(** C7. Whether a call returns or raises, every object of the store it
    was given, the input array among them, is afterwards what it was
    before: the call only reads it.  When the call raises the store is
    the one it was given; when it returns, the result is an array object
    that did not exist before the call. *)
Theorem input_array_never_written (h : heap) (l : loc) (e : num) (n : Z) :
  (∀ l0 : loc, l0 < length h →
     (compute_contour l e n h).2 !! l0 = h !! l0)
  ∧ match (compute_contour l e n h).1 with
    | Ok l' =>
        h !! l' = None
        ∧ ∃ out, (compute_contour l e n h).2 !! l' = Some (Vec out)
    | Raise _ => (compute_contour l e n h).2 = h
    end.
Proof.
  destruct (compute_contour_frame h l e n) as (tmp & Hh & Hr).
  split.
  - intros l0 Hl0. rewrite Hh. by apply lookup_app_l.
  - destruct (compute_contour l e n h).1 as [l'|x].
    + destruct Hr as (out & Hl' & Hout). split.
      * by apply lookup_ge_None_2.
      * exists out. by rewrite Hh.
    + rewrite Hh, Hr. apply app_nil_r.
Qed.

End Frame.

(** * Further properties of every arithmetic *)

Section Elementwise.
Context `{Arith}.

(** X1. The eccentricity is checked before the array is looked at: a call
    with an eccentricity at most 0 raises the first error, and one with an
    eccentricity of at least 1 the second, whatever the store holds under
    the reference, whatever the iteration count, and without touching the
    store. *)
Theorem eccentricity_checked_first (h : heap) (l : loc) (e : num) (n : Z) :
  (fle e (of_int 0) = true →
     compute_contour l e n h = (Raise EccentricityNotPositive, h))
  ∧ (fle e (of_int 0) = false → fle (of_int 1) e = true →
     compute_contour l e n h = (Raise EccentricityNotBelowOne, h)).
Proof.
  unfold compute_contour, mbind, M_bind. split.
  - by intros ->.
  - by intros -> ->.
Qed.

(** X2. The iteration count is checked last: a call raises the error on the
    number of sampling points only when the count is below 2 and the
    eccentricity and the array pass their checks, so that the same call
    with any count of at least 2 passes all of them. *)
Theorem iteration_count_checked_last (h : heap) (l : loc) (ell : list num)
    (e : num) (n : Z) :
  h !! l = Some (Vec ell) →
  compute_contour l e n h = (Raise TooFewPoints, h) →
  (n < 2)%Z ∧ ∀ n' : Z, (2 ≤ n')%Z → check_inputs ell e n' = Ok tt.
Proof.
  intros Hl Hr.
  destruct (check_inputs ell e n) as [[]|x] eqn:Hc.
  - pose proof (compute_contour_run _ _ _ _ _ Hl Hc) as Hrun. congruence.
  - pose proof (compute_contour_raise _ _ _ _ _ _ Hl Hc) as Hrun.
    assert (x = TooFewPoints) as -> by congruence. revert Hc.
    unfold check_inputs.
    destruct (fle e (of_int 0)); [discriminate|].
    destruct (fle (of_int 1) e); [discriminate|].
    destruct ell as [|x0 t]; [discriminate|]. cbn [da_max da_min].
    destruct (flt (fmul (of_int 2) np_pi) _); [discriminate|].
    destruct (flt _ (of_int 0)); [discriminate|].
    destruct (Z.ltb_spec n 2); [|discriminate]. intros _. split; [done|].
    intros n' Hn'. by destruct (Z.ltb_spec n' 2); [lia|].
Qed.


(** X4. Replacing one element of the input replaces the element of the
    output at the same position and no other, provided the new array
    passes the checks. *)
Theorem solve_insert (ell out : list num) (e : num) (n : Z) (i : nat)
    (x : num) :
  solve ell e n = Ok out →
  check_inputs (<[i := x]> ell) e n = Ok tt →
  solve (<[i := x]> ell) e n
  = Ok (<[i := output e n (one_column ell) x]> out).
Proof.
  intros [_ ->]%solve_ok_inv Hc. rewrite (solve_ok _ _ _ Hc).
  unfold one_column. by rewrite length_insert, list_fmap_insert.
Qed.

End Elementwise.

(** * The example of the source (lines 118-142)

    The script builds the eccentric anomalies [E_true] at the midpoints of
    an even grid over (0, 2 pi), the mean anomalies [ell_input] they
    correspond to, and calls the kernel on them.  Its printing and timing
    are left out, and with them the chunking: the arrays are taken as one
    block each. *)

Section Example.
Context `{Arith}.
#[local] Existing Instance M_bind.

(** [(2.0*np.pi*(da.arange(N_ell)+0.5))/N_ell] *)
Definition E_true (N_ell : Z) : list num :=
  vs fdiv (sv fmul (fmul (of_int 2) np_pi) (vs fadd (arange N_ell) half))
          (of_int N_ell).

(** [E_true - eccentricity*da.sin(E_true)] *)
Definition ell_input (N_ell : Z) (eccentricity : num) : list num :=
  vv fsub (E_true N_ell) (sv fmul eccentricity (fsin <$> E_true N_ell)).

Definition example (N_ell : Z) (eccentricity : num) (N_it : Z) : M loc :=
  E_true ← alloc (Vec (E_true N_ell));
  ell_input ← (E ← load_vec E_true;
               alloc (Vec (vv fsub E (sv fmul eccentricity (fsin <$> E)))));
  compute_contour ell_input eccentricity N_it.

(** the entries of the two arrays *)
Definition E_true_at (N_ell : Z) (k : nat) : num :=
  fdiv (fmul (fmul (of_int 2) np_pi) (fadd (of_int (Z.of_nat k)) half))
       (of_int N_ell).
Definition ell_input_at (N_ell : Z) (eccentricity : num) (k : nat) : num :=
  fsub (E_true_at N_ell k) (fmul eccentricity (fsin (E_true_at N_ell k))).

Lemma E_true_eq (N_ell : Z) :
  E_true N_ell = E_true_at N_ell <$> seq 0 (Z.to_nat N_ell).
Proof. unfold E_true, arange. by rewrite vs_fmap, sv_fmap, vs_fmap. Qed.

Lemma ell_input_eq (N_ell : Z) (e : num) :
  ell_input N_ell e = ell_input_at N_ell e <$> seq 0 (Z.to_nat N_ell).
Proof.
  unfold ell_input. rewrite E_true_eq.
  by rewrite fmap_fmap, sv_fmap, vv_fmap.
Qed.

(** The script is a call of the kernel on [ell_input], in a store that
    holds [E_true] and [ell_input] behind what it held before. *)
Lemma example_run (N_ell : Z) (e : num) (n : Z) (h : heap) :
  example N_ell e n h
  = compute_contour (length h + 1) e n
      (h ++ [Vec (E_true N_ell); Vec (ell_input N_ell e)]).
Proof.
  unfold example, mbind, M_bind.
  rewrite <- (app_nil_r h) at 1. rewrite run_alloc. cbn [length app Nat.add].
  rewrite bind_assoc. erewrite run_load_vec by reflexivity.
  rewrite run_alloc. cbn [length app Nat.add]. reflexivity.
Qed.

End Example.
(** * The real numbers as arithmetic

    binary64 read as the real number it denotes and every operation
    exact: the reading under which the specification states its
    formulas. *)

Module RealModel.

#[export] Instance Rlt_decision (x y : R) : Decision (x < y)%R := Rlt_dec x y.
#[export] Instance Rle_decision (x y : R) : Decision (x <= y)%R := Rle_dec x y.

#[export] Instance real_arith : Arith := {|
  num := R;
  fadd := Rplus;
  fsub := Rminus;
  fmul := Rmult;
  fdiv := Rdiv;
  fneg := Ropp;
  fsin := sin;
  fcos := cos;
  fcosh := cosh;
  fsinh := sinh;
  flt := λ x y, bool_decide (x < y)%R;
  fle := λ x y, bool_decide (x <= y)%R;
  fmaximum := Rmax;
  fminimum := Rmin;
  of_int := IZR;
  half := (1 / 2)%R;
  np_pi := PI;
|}.
Canonical Structure real_arith.

Local Open Scope R_scope.

(** ** The checks over the reals *)

Lemma foldl_Rmax_spec (t : list R) (x : R) :
  foldl Rmax x t ∈ x :: t ∧ Forall (λ y, y <= foldl Rmax x t) (x :: t).
Proof.
  revert x. induction t as [|y t IH]; intros x; simpl.
  - split; [left|]. apply Forall_cons. split; [lra|apply Forall_nil; done].
  - destruct (IH (Rmax x y)) as [Hin Hle]. split.
    + apply elem_of_cons in Hin as [->|Hin]; [|by do 2 right].
      unfold Rmax. destruct (Rle_dec x y); [right; left|left].
    + apply Forall_cons in Hle as [Hm Hle].
      pose proof (Rmax_l x y). pose proof (Rmax_r x y).
      apply Forall_cons. split; [lra|]. apply Forall_cons. split; [lra|done].
Qed.

Lemma foldl_Rmin_spec (t : list R) (x : R) :
  foldl Rmin x t ∈ x :: t ∧ Forall (λ y, foldl Rmin x t <= y) (x :: t).
Proof.
  revert x. induction t as [|y t IH]; intros x; simpl.
  - split; [left|]. apply Forall_cons. split; [lra|apply Forall_nil; done].
  - destruct (IH (Rmin x y)) as [Hin Hle]. split.
    + apply elem_of_cons in Hin as [->|Hin]; [|by do 2 right].
      unfold Rmin. destruct (Rle_dec x y); [left|right; left].
    + apply Forall_cons in Hle as [Hm Hle].
      pose proof (Rmin_l x y). pose proof (Rmin_r x y).
      apply Forall_cons. split; [lra|]. apply Forall_cons. split; [lra|done].
Qed.

(** the maximum exceeds a bound exactly when some element does *)
Lemma max_exceeds (x : R) (t : list R) (b : R) :
  b < foldl Rmax x t ↔ Exists (λ y, b < y) (x :: t).
Proof.
  destruct (foldl_Rmax_spec t x) as [Hin Hle]. split.
  - intros Hb. apply Exists_exists. eauto.
  - intros (y & Hy & Hby)%Exists_exists.
    rewrite Forall_forall in Hle. specialize (Hle y Hy). lra.
Qed.

Lemma min_below (x : R) (t : list R) (b : R) :
  foldl Rmin x t < b ↔ Exists (λ y, y < b) (x :: t).
Proof.
  destruct (foldl_Rmin_spec t x) as [Hin Hle]. split.
  - intros Hb. apply Exists_exists. eauto.
  - intros (y & Hy & Hby)%Exists_exists.
    rewrite Forall_forall in Hle. specialize (Hle y Hy). lra.
Qed.

(** the conditions the specification lists *)
Definition rejected (ell : list R) (e : R) (n : Z) : Prop :=
  e <= 0 ∨ 1 <= e ∨ Exists (λ x, 2 * PI < x) ell
  ∨ Exists (λ x, x < 0) ell ∨ (n < 2)%Z.

Lemma check_inputs_nonempty (ell : list R) (e : R) (n : Z) :
  ell ≠ [] →
  (rejected ell e n → ∃ x, check_inputs ell e n = Raise x ∧ kernel_error x)
  ∧ (¬ rejected ell e n → check_inputs ell e n = Ok tt).
Proof.
  intros Hne. destruct ell as [|x t]; [done|].
  unfold check_inputs, rejected, kernel_error. cbn.
  rewrite <- (max_exceeds x t), <- (min_below x t).
  repeat case_bool_decide; destruct (Z.ltb_spec n 2); split;
    first [ intros _; eexists; split; [reflexivity|]; tauto
          | intros []; tauto
          | intros _; reflexivity
          | intros [?|[?|[?|[?|?]]]]; first [lra | lia] ].
Qed.

Lemma check_inputs_ok_iff (ell : list R) (e : R) (n : Z) :
  check_inputs ell e n = Ok tt
  ↔ 0 < e < 1 ∧ ell ≠ [] ∧ Forall (λ x, 0 <= x <= 2 * PI) ell ∧ (2 <= n)%Z.
Proof.
  split.
  - intros Hc. assert (ell ≠ []) as Hne.
    { intros ->. revert Hc. unfold check_inputs. cbn.
      repeat case_bool_decide; discriminate. }
    destruct (check_inputs_nonempty ell e n Hne) as [Hrej _].
    assert (¬ rejected ell e n) as Hn.
    { intros (x & Hx & _)%Hrej. congruence. }
    unfold rejected in Hn. repeat split; try done.
    + apply Rnot_le_lt. tauto.
    + apply Rnot_le_lt. tauto.
    + apply Forall_forall. intros y Hy. split.
      * apply Rnot_lt_le. intros ?. apply Hn. do 3 right. left.
        apply Exists_exists. eauto.
      * apply Rnot_lt_le. intros ?. apply Hn. do 2 right. left.
        apply Exists_exists. eauto.
    + lia.
  - intros ([He0 He1] & Hne & Hall & Hn).
    apply check_inputs_nonempty; [done|]. unfold rejected.
    rewrite Forall_forall in Hall.
    intros [?|[?|[(y & Hy & ?)%Exists_exists|[(y & Hy & ?)%Exists_exists|?]]]];
      try lra; try lia; specialize (Hall y Hy); lra.
Qed.

Lemma one_in_range : 0 <= 1 <= 2 * PI.
Proof. pose proof PI2_1. lra. Qed.

(** ** The endpoints of the range *)

(** C6. With an eccentricity in (0, 1) and an iteration count of at least
    2, an array that contains 0 or 2 pi, all of whose elements lie in the
    closed range, passes the checks: the call returns an array of the
    length of the input. *)
Theorem endpoints_accepted (ell : list R) (e : R) (n : Z) :
  0 < e < 1 →
  (2 <= n)%Z →
  0 ∈ ell ∨ 2 * PI ∈ ell →
  Forall (λ x, 0 <= x <= 2 * PI) ell →
  check_inputs ell e n = Ok tt
  ∧ ∃ out, solve ell e n = Ok out ∧ length out = length ell.
Proof.
  intros He Hn Hin Hall.
  assert (check_inputs ell e n = Ok tt) as Hc.
  { apply check_inputs_ok_iff. repeat split; try done; try apply He.
    intros ->. destruct Hin as [Hin|Hin]; by apply elem_of_nil in Hin. }
  split; [done|]. exists (output (H:=real_arith) e n (one_column ell) <$> ell).
  split; [by apply solve_ok|by rewrite length_fmap].
Qed.

Lemma endpoints_accepted_witness :
  check_inputs [0; 2 * PI] (1 / 2) 2 = Ok tt
  ∧ ∃ out, solve [0; 2 * PI] (1 / 2) 2 = Ok out ∧ length out = 2%nat.
Proof.
  apply (endpoints_accepted [0; 2 * PI] (1 / 2) 2).
  - lra.
  - lia.
  - left. left.
  - pose proof PI_RGT_0.
    apply Forall_cons; split; [lra|]. apply Forall_cons; split; [lra|].
    apply Forall_nil; done.
Defined.

(** ** Instances of the statements of every arithmetic *)

Lemma check_one (x : R) :
  0 <= x <= 2 * PI → check_inputs [x] (1 / 2) 2 = Ok tt.
Proof.
  intros Hx. apply check_inputs_ok_iff. repeat split; try lra; try lia.
  - discriminate.
  - apply Forall_cons; split; [lra|]. apply Forall_nil; done.
Qed.

Lemma check_two (x y : R) :
  0 <= x <= 2 * PI → 0 <= y <= 2 * PI →
  check_inputs [x; y] (1 / 2) 2 = Ok tt.
Proof.
  intros Hx Hy. apply check_inputs_ok_iff. repeat split; try lra; try lia.
  - discriminate.
  - apply Forall_cons; split; [lra|]. apply Forall_cons; split; [lra|].
    apply Forall_nil; done.
Qed.

Lemma solve_deterministic_and_pure_witness :
  read_back (compute_contour 0%nat (1 / 2) 2 [Vec (H:=real_arith) [1]])
  = solve [1] (1 / 2) 2
  ∧ read_back (compute_contour 1%nat (1 / 2) 2
                 [Vec (H:=real_arith) []; Vec (H:=real_arith) [1]])
    = solve [1] (1 / 2) 2.
Proof.
  destruct (solve_deterministic_and_pure (H:=real_arith)
              [Vec (H:=real_arith) [1]]
              [Vec (H:=real_arith) []; Vec (H:=real_arith) [1]]
              0%nat 1%nat [1] (1 / 2) 2
              eq_refl eq_refl) as (H1 & H2 & _).
  exact (conj H1 H2).
Defined.

(** ** The contour center *)

(** the center as the specification words it *)
Definition center_spec (e ell : R) : R :=
  if decide (ell < PI) then ell + e / 2 else ell - e / 2.

Lemma center_real (e ell : R) : center e ell = center_spec e ell.
Proof.
  unfold center, center_spec. cbn. case_bool_decide as Hlt.
  - rewrite decide_True by done. lra.
  - by rewrite decide_False by done.
Qed.

(** C3. In a call whose checks pass, the array [center] holds, at every
    element, the element plus e/2 when the element is below pi and the
    element minus e/2 otherwise; [sinC] and [cosC] hold the sine and the
    cosine of that value, the two edge samples are taken at that value
    plus and minus the radius, and the result is that value plus the
    correction [radius*ft_gx2/ft_gx1]. *)
Theorem contour_center (h : heap) (l : loc) (ell : list R) (e : R) (n : Z) :
  h !! l = Some (Vec ell) →
  check_inputs ell e n = Ok tt →
  (∀ x, center e x = center_spec e x
        ∧ sinC e x = sin (center_spec e x)
        ∧ cosC e x = cos (center_spec e x))
  ∧ ∃ tmp : heap,
      compute_contour l e n h = (Ok (length h + 11)%nat, h ++ tmp)
      ∧ tmp !! 12%nat = Some (Vec ((λ x, sin (center_spec e x)) <$> ell))
      ∧ tmp !! 13%nat = Some (Vec ((λ x, cos (center_spec e x)) <$> ell))
      ∧ tmp !! 14%nat = Some (Vec ((λ x, center_spec e x + e / 2) <$> ell))
      ∧ tmp !! 26%nat = Some (Vec ((λ x, center_spec e x - e / 2) <$> ell))
      ∧ tmp !! 11%nat
        = Some (Vec ((λ x, center_spec e x
                           + e / 2 * ft_gx2 e n (one_column ell) x
                             / ft_gx1 e n (one_column ell) x) <$> ell)).
Proof.
  intros Hl Hc. split.
  - intros x. unfold sinC, cosC. by rewrite center_real.
  - exists (arrays_of_call e n ell). split; [by apply compute_contour_run|].
    cbn [arrays_of_call lookup list_lookup].
    repeat split; do 2 f_equal; apply list_fmap_ext; intros _ x _;
      unfold sinC, cosC, output; rewrite ?center_real; reflexivity.
Qed.

Lemma contour_center_witness :
  center (1 / 2) 1 = center_spec (1 / 2) 1
  ∧ sinC (1 / 2) 1 = sin (center_spec (1 / 2) 1)
  ∧ cosC (1 / 2) 1 = cos (center_spec (1 / 2) 1).
Proof.
  exact (proj1 (contour_center [Vec (H:=real_arith) [1]] 0%nat [1] (1 / 2) 2
                  eq_refl (check_one 1 one_in_range)) 1).
Defined.

(** ** The smallest iteration count *)

(** the estimate from the two edge terms alone *)
Definition two_edge_estimate (e ell : R) : R :=
  center e ell
  + e / 2 * ((1 / 2 / fxR_right e ell + 1 / 2 / fxR_left e ell)
             / (1 / 2 / fxR_right e ell - 1 / 2 / fxR_left e ell)).

Lemma sum_samples_nil (s : bool) : sum_samples (H:=real_arith) s [] = 0.
Proof. destruct s; cbn; lra. Qed.

(** C10. With an iteration count of 2 there is no interior sample: the
    arrays over the sampling index have no entry, the matrices no row,
    both sums over the samples are 0 at every element, and the call
    returns, at every element, the center plus the radius times the
    ratio of the two accumulators, which the two edge terms alone make
    up. *)
Theorem no_interior_samples (h : heap) (l : loc) (ell : list R) (e : R) :
  h !! l = Some (Vec ell) →
  check_inputs ell e 2 = Ok tt →
  N_points 2 = 0%Z
  ∧ j_arr 2 = []
  ∧ sum_axis0 (length ell) (tab (summand_gx2 e 2) (j_arr 2) ell)
    = replicate (length ell) 0
  ∧ sum_axis0 (length ell) (tab (summand_gx1 e 2) (j_arr 2) ell)
    = replicate (length ell) 0
  ∧ solve ell e 2 = Ok (two_edge_estimate e <$> ell)
  ∧ ∃ tmp : heap,
      compute_contour l e 2 h = (Ok (length h + 11)%nat, h ++ tmp)
      ∧ tmp !! 23%nat = Some (Mat (length ell) [])
      ∧ tmp !! 24%nat = Some (Mat (length ell) [])
      ∧ tmp !! 11%nat = Some (Vec (two_edge_estimate e <$> ell)).
Proof.
  intros Hl Hc.
  assert (∀ s x, output e 2 s x = two_edge_estimate e x) as Hout.
  { intros s x. unfold output, ft_gx2, ft_gx1, two_edge_estimate, radius.
    change (j_arr 2) with (@nil nat). cbn [fmap list_fmap].
    rewrite !sum_samples_nil.
    cbn [fadd fdiv fmul fneg half of_int real_arith].
    generalize (fxR_right e x) (fxR_left e x) (center e x). cbn [num real_arith].
    intros a b c.
    replace (1 / 2 / a + 0 + 1 / 2 / b) with (1 / 2 / a + 1 / 2 / b) by lra.
    replace (1 / 2 / a + 0 + - (1 / 2) / b) with (1 / 2 / a - 1 / 2 / b)
      by (unfold Rdiv; ring).
    unfold Rdiv. ring. }
  assert (∀ s, output (H:=real_arith) e 2 s <$> ell
               = two_edge_estimate e <$> ell)
    as Hmap by (intros s; apply list_fmap_ext; intros _ x _; apply Hout).
  assert (∀ F : nat → R → R,
            sum_axis0 (length ell) (tab F (j_arr 2) ell)
            = replicate (length ell) 0) as Hsum.
  { intros F. rewrite sum_axis0_tab. change (j_arr 2) with (@nil nat).
    cbn [fmap list_fmap]. generalize (one_column ell). intros s.
    clear. induction ell as [|x t IH]; [done|].
    cbn [fmap list_fmap length replicate]. rewrite IH.
    by rewrite sum_samples_nil. }
  split; [done|]. split; [done|]. split; [apply Hsum|]. split; [apply Hsum|].
  split.
  - by rewrite (solve_ok _ _ _ Hc), Hmap.
  - exists (arrays_of_call e 2 ell). split; [by apply compute_contour_run|].
    cbn [arrays_of_call lookup list_lookup]. repeat split.
    by rewrite Hmap.
Qed.

Lemma no_interior_samples_witness :
  solve [1] (1 / 2) 2 = Ok (two_edge_estimate (1 / 2) <$> [1]).
Proof.
  destruct (no_interior_samples [Vec (H:=real_arith) [1]] 0%nat [1] (1 / 2)
              eq_refl (check_one 1 one_in_range)) as (_ & _ & _ & _ & Hs & _).
  exact Hs.
Defined.

(** ** The reference algorithm of the specification

    The contour sum as section 4 of the specification states it: the
    function [f(z) = z - e sin z - ell] at the two real edge samples and
    at the interior complex samples [center + r exp(i theta_j)], the
    complex inverse, and the real parts of the products with the weights
    [exp(i theta_j)] and [exp(2 i theta_j)]. *)

Definition Rsum (l : list R) : R := foldr Rplus 0 l.

Section Reference.
Variable e : R.
Variable N_it : Z.

Definition N_points_ref : Z := N_it - 2.
Definition N_fft_ref : Z := 2 * (N_it - 1).
Definition r_ref : R := e / 2.

(** the angle of sample [j], for [j = 1 .. N_points] *)
Definition theta (j : nat) : R := 2 * PI * INR j / IZR N_fft_ref.

(** [f] at a real argument, and the real and imaginary parts of [f] at
    [x + i y] *)
Definition f_real (ell x : R) : R := x - e * sin x - ell.
Definition f_re (ell x y : R) : R := x - e * (sin x * cosh y) - ell.
Definition f_im (x y : R) : R := y - e * (cos x * sinh y).

(** the inverse of [a + i b] *)
Definition inv_re (a b : R) : R := a / (a * a + b * b).
Definition inv_im (a b : R) : R := - b / (a * a + b * b).

(** the real part of [(a + i b)(c + i d)] *)
Definition re_mul (a b c d : R) : R := a * c - b * d.

Definition zR_ref (ell : R) (j : nat) : R :=
  center_spec e ell + r_ref * cos (theta j).
Definition zI_ref (j : nat) : R := r_ref * sin (theta j).

Definition interior_gx1 (ell : R) (j : nat) : R :=
  let a := f_re ell (zR_ref ell j) (zI_ref j) in
  let b := f_im (zR_ref ell j) (zI_ref j) in
  re_mul (cos (theta j)) (sin (theta j)) (inv_re a b) (inv_im a b).
Definition interior_gx2 (ell : R) (j : nat) : R :=
  let a := f_re ell (zR_ref ell j) (zI_ref j) in
  let b := f_im (zR_ref ell j) (zI_ref j) in
  re_mul (cos (2 * theta j)) (sin (2 * theta j)) (inv_re a b) (inv_im a b).

Definition samples : list nat := seq 1 (Z.to_nat N_points_ref).

Definition gx1_ref (ell : R) : R :=
  0.5 / f_real ell (center_spec e ell + r_ref)
  + - 0.5 / f_real ell (center_spec e ell - r_ref)
  + Rsum (interior_gx1 ell <$> samples).
Definition gx2_ref (ell : R) : R :=
  0.5 / f_real ell (center_spec e ell + r_ref)
  + 0.5 / f_real ell (center_spec e ell - r_ref)
  + Rsum (interior_gx2 ell <$> samples).

Definition solve_ref (ell : R) : R :=
  center_spec e ell + r_ref * (gx2_ref ell / gx1_ref ell).

End Reference.

(** ** The code computes the reference *)

Lemma Rsum_app (l1 l2 : list R) : Rsum (l1 ++ l2) = Rsum l1 + Rsum l2.
Proof.
  unfold Rsum. induction l1 as [|x l1 IH]; simpl; [lra|]. rewrite IH. lra.
Qed.

Lemma Rsum_perm (l l' : list R) : l ≡ₚ l' → Rsum l = Rsum l'.
Proof. unfold Rsum. induction 1; simpl; lra. Qed.

(** over the reals the order of the additions is immaterial: whatever
    [np.sum] does, it returns the sum *)
Lemma summation_Rsum (l : list R) (v : R) : summation l v → v = Rsum l.
Proof.
  induction 1 as [|x|l1 l2 v1 v2 _ IH1 _ IH2|l l' v Hp _ IH].
  - reflexivity.
  - unfold Rsum. simpl. lra.
  - rewrite Rsum_app, <- IH1, <- IH2. reflexivity.
  - rewrite IH. by apply Rsum_perm.
Qed.

Lemma freq_theta (n : Z) (j : nat) : freq n j = theta n (S j).
Proof.
  unfold freq, theta, N_fft, N_fft_ref.
  rewrite S_INR, INR_IZR_INZ, (Z.mul_comm (n - 1) 2). reflexivity.
Qed.

Lemma radius_ref (e : R) : radius e = r_ref e.
Proof. reflexivity. Qed.

Lemma fxR_right_ref (e x : R) :
  fxR_right e x = f_real e x (center_spec e x + r_ref e).
Proof.
  unfold fxR_right, f_real, sinC, cosC, ecosRadius, esinRadius.
  rewrite center_real, radius_ref. cbn. rewrite sin_plus. ring.
Qed.

Lemma fxR_left_ref (e x : R) :
  fxR_left e x = f_real e x (center_spec e x - r_ref e).
Proof.
  unfold fxR_left, f_real, sinC, cosC, ecosRadius, esinRadius.
  rewrite center_real, radius_ref. cbn. rewrite sin_minus. ring.
Qed.

Lemma fxR_ref (e : R) (n : Z) (j : nat) (x : R) :
  fxR e n j x = f_re e x (zR_ref e n x (S j)) (zI_ref e n (S j)).
Proof.
  unfold fxR, f_re, zR_ref, zI_ref, sinC, cosC, ecosR, esinR, coshI,
    exp2R, exp2I.
  rewrite center_real, radius_ref, freq_theta. cbn. rewrite sin_plus. ring.
Qed.

Lemma fxI_ref (e : R) (n : Z) (j : nat) (x : R) :
  fxI e n j x = f_im e (zR_ref e n x (S j)) (zI_ref e n (S j)).
Proof.
  unfold fxI, f_im, zR_ref, zI_ref, sinC, cosC, ecosR, esinR, sinhI,
    exp2R, exp2I.
  rewrite center_real, radius_ref, freq_theta. cbn. rewrite cos_plus. ring.
Qed.

Lemma summand_gx1_ref (e : R) (n : Z) (j : nat) (x : R) :
  summand_gx1 e n j x = interior_gx1 e n x (S j).
Proof.
  unfold summand_gx1, interior_gx1, ftmp. rewrite fxR_ref, fxI_ref.
  unfold exp2R, exp2I. rewrite freq_theta. cbn.
  unfold re_mul, inv_re, inv_im, Rdiv. ring.
Qed.

Lemma summand_gx2_ref (e : R) (n : Z) (j : nat) (x : R) :
  summand_gx2 e n j x = interior_gx2 e n x (S j).
Proof.
  unfold summand_gx2, interior_gx2, ftmp. rewrite fxR_ref, fxI_ref.
  unfold exp4R, exp4I, exp2R, exp2I. rewrite freq_theta. cbn.
  rewrite cos_2a, sin_2a.
  unfold re_mul, inv_re, inv_im, Rdiv. ring.
Qed.

Lemma interior_sum_ref (n : Z) (s : bool) (F : nat → R) (G : nat → R) :
  (∀ j, F j = G (S j)) →
  sum_samples s (F <$> j_arr n) = Rsum (G <$> samples n).
Proof.
  intros HFG. rewrite (summation_Rsum _ _ (sum_samples_summation s _)).
  f_equal.
  unfold j_arr, samples, N_points, N_points_ref.
  rewrite <- fmap_S_seq, <- list_fmap_compose.
  apply list_fmap_ext. intros _ j _. apply HFG.
Qed.

Lemma output_ref (e : R) (n : Z) (s : bool) (x : R) :
  output e n s x = solve_ref e n x.
Proof.
  unfold output, solve_ref, ft_gx2, ft_gx1, gx2_ref, gx1_ref.
  rewrite (interior_sum_ref n s _ (interior_gx2 e n x))
    by (intros j; apply summand_gx2_ref).
  rewrite (interior_sum_ref n s _ (interior_gx1 e n x))
    by (intros j; apply summand_gx1_ref).
  rewrite fxR_right_ref, fxR_left_ref, center_real, radius_ref. cbn.
  unfold Rdiv. rewrite Rmult_assoc. f_equal. f_equal.
  set (s2 := Rsum _). set (s1 := Rsum _).
  f_equal; [lra|]. f_equal. lra.
Qed.

(** C1. For every array, eccentricity and iteration count that pass the
    checks, the call returns, element by element, what the reference
    algorithm of the specification gives. *)
Theorem solve_refines_reference (ell : list R) (e : R) (n : Z) :
  check_inputs ell e n = Ok tt →
  solve ell e n = Ok (solve_ref e n <$> ell).
Proof.
  intros Hc. rewrite (solve_ok _ _ _ Hc). f_equal.
  apply list_fmap_ext. intros _ x _. apply output_ref.
Qed.

Lemma solve_refines_reference_witness :
  solve [1] (1 / 2) 2 = Ok (solve_ref (1 / 2) 2 <$> [1]).
Proof.
  exact (solve_refines_reference [1] (1 / 2) 2 (check_one 1 one_in_range)).
Defined.

(** ** The concrete scenario of the specification

    [solve([1.0708], 0.5, 10)].  The right edge sample [center + r] is
    1.5708, within 2e-11 of the root of Kepler's equation for this mean
    anomaly, so its term dominates both accumulators and the estimate is
    1.5708 up to 1e-9: 3.67e-6 above pi/2. *)

Lemma PI_upper : PI <= 3141593 / 1000000.
Proof.
  destruct (PI_2_3_7_ineq 3) as [_ Hu].
  unfold sum_f_R0, tg_alt, PI_2_3_7_tg, Ratan_seq in Hu.
  simpl in Hu. lra.
Qed.

Lemma PI_lower : 314159 / 100000 <= PI.
Proof.
  destruct (PI_2_3_7_ineq 3) as [Hl _].
  unfold sum_f_R0, tg_alt, PI_2_3_7_tg, Ratan_seq in Hl.
  simpl in Hl. lra.
Qed.

(** crude enclosures of the elementary functions *)

Lemma sin_lower (a : R) : 0 <= a → a <= PI → a - a * a * a / 6 <= sin a.
Proof.
  intros H0 H1. destruct (sin_bound a 0 H0 H1) as [Hl _].
  unfold sin_approx, sum_f_R0, sin_term in Hl. simpl in Hl. lra.
Qed.

Lemma cos_lower (a : R) :
  - PI / 2 <= a → a <= PI / 2 → 1 - a * a / 2 <= cos a.
Proof.
  intros H0 H1. destruct (cos_bound a 0 H0 H1) as [Hl _].
  unfold cos_approx, sum_f_R0, cos_term in Hl. simpl in Hl. lra.
Qed.

Lemma cos_upper (a : R) :
  - PI / 2 <= a → a <= PI / 2 →
  cos a <= 1 - a * a / 2 + a * a * a * a / 24.
Proof.
  intros H0 H1. destruct (cos_bound a 0 H0 H1) as [_ Hu].
  unfold cos_approx, sum_f_R0, cos_term in Hu. simpl in Hu. lra.
Qed.

Lemma sinh_enclosure (y : R) :
  0 <= y → y <= 1 / 4 → 0 <= sinh y <= 6 / 5 * y.
Proof.
  intros H0 H1. unfold sinh.
  pose proof (exp_ineq1_le y) as Hp. pose proof (exp_ineq1_le (- y)) as Hm.
  pose proof (exp_pos y) as Hpos.
  rewrite exp_Ropp in *.
  assert (exp y * / exp y = 1) as Hinv by (apply Rinv_r; lra).
  set (u := exp y) in *. set (v := / u) in *.
  split; nra.
Qed.

Lemma sin_interior (t : R) :
  3 / 10 <= t → t <= PI - 3 / 10 → 29 / 100 <= sin t.
Proof.
  intros H0 H1. pose proof PI_lower. pose proof PI_upper.
  assert (29 / 100 <= sin (3 / 10)) as Hs.
  { pose proof (sin_lower (3 / 10)). lra. }
  destruct (Rle_dec t (PI / 2)) as [Hle|Hgt].
  - pose proof (sin_incr_1 (3 / 10) t). lra.
  - rewrite <- sin_PI_x. pose proof (sin_incr_1 (3 / 10) (PI - t)). lra.
Qed.

Lemma Rabs_between (x c : R) : Rabs x <= c → - c <= x <= c.
Proof.
  intros Hb. pose proof (Rle_abs x). pose proof (Rle_abs (- x)) as Hn.
  rewrite Rabs_Ropp in Hn. lra.
Qed.

Lemma unit_mul_bound (w x c : R) :
  -1 <= w <= 1 → - c <= x <= c → - c <= w * x <= c.
Proof.
  intros Hw Hx.
  assert (Rabs (w * x) <= c) as Hb.
  { rewrite Rabs_mult.
    assert (Rabs w <= 1) by (apply Rabs_le; lra).
    assert (Rabs x <= c) by (apply Rabs_le; lra).
    pose proof (Rabs_pos w). pose proof (Rabs_pos x).
    replace c with (1 * c) by ring. apply Rmult_le_compat; lra. }
  pose proof (Rle_abs (w * x)). pose proof (Rle_abs (- (w * x))) as Hn.
  rewrite Rabs_Ropp in Hn. lra.
Qed.

(** the inverse of a complex number whose imaginary part is at least
    [beta], weighted by a point of the unit square *)
Lemma weighted_inverse_bound (w1 w2 a b beta : R) :
  -1 <= w1 <= 1 → -1 <= w2 <= 1 → 0 < beta → beta <= b →
  Rabs (re_mul w1 w2 (inv_re a b) (inv_im a b)) <= 3 / (2 * beta).
Proof.
  intros Hw1 Hw2 Hb0 Hb. unfold re_mul, inv_re, inv_im.
  assert (beta * beta <= b * b) as Hbb by nra.
  assert (beta * b <= b * b) as Hbb' by nra.
  pose proof (Rle_0_sqr (a - beta)) as Hsq1.
  pose proof (Rle_0_sqr (a + beta)) as Hsq2.
  pose proof (Rle_0_sqr a) as Ha0. unfold Rsqr in Hsq1, Hsq2, Ha0.
  assert (0 < beta * beta) as Hb2 by (apply Rmult_lt_0_compat; lra).
  assert (0 < a * a + b * b) as Hm by lra.
  assert (2 * (beta * a) <= a * a + b * b) as Ha1 by lra.
  assert (- 2 * (beta * a) <= a * a + b * b) as Ha2 by lra.
  assert (b * b <= a * a + b * b) as Hmb by lra.
  set (m := a * a + b * b) in *.
  assert (a / m * m = a) as Hx by (field; lra).
  assert (b / m * m = b) as Hy by (field; lra).
  assert (/ beta * beta = 1) as Hi by (field; lra).
  assert (0 < / beta) as Hib by (apply Rinv_0_lt_compat; lra).
  replace (- b / m) with (- (b / m)) by (field; lra).
  replace (3 / (2 * beta)) with (3 / 2 * / beta) by (field; lra).
  set (x := a / m) in *. set (y := b / m) in *. set (k := / beta) in *.
  clearbody x y k m.
  assert (- (k / 2) <= x <= k / 2) as Hxb.
  { split; apply Rnot_lt_le; intros Hc.
    - assert (0 < beta * ((- x - k / 2) * m)) as Hp
        by (repeat apply Rmult_lt_0_compat; lra).
      replace (beta * ((- x - k / 2) * m))
        with (- (beta * (x * m)) - k * beta * m / 2) in Hp by field.
      rewrite Hx, Hi in Hp. lra.
    - assert (0 < beta * ((x - k / 2) * m)) as Hp
        by (repeat apply Rmult_lt_0_compat; lra).
      replace (beta * ((x - k / 2) * m))
        with (beta * (x * m) - k * beta * m / 2) in Hp by field.
      rewrite Hx, Hi in Hp. lra. }
  assert (0 <= y <= k) as Hyb.
  { split; apply Rnot_lt_le; intros Hc.
    - assert (0 < (- y) * m) as Hp by (apply Rmult_lt_0_compat; lra).
      replace (- y * m) with (- (y * m)) in Hp by ring.
      rewrite Hy in Hp. lra.
    - assert (0 < beta * ((y - k) * m)) as Hp
        by (repeat apply Rmult_lt_0_compat; lra).
      replace (beta * ((y - k) * m))
        with (beta * (y * m) - k * beta * m) in Hp by ring.
      rewrite Hy, Hi in Hp. lra. }
  pose proof (unit_mul_bound w1 x (k / 2) Hw1 Hxb).
  pose proof (unit_mul_bound w2 y k Hw2 ltac:(lra)).
  apply Rabs_le. lra.
Qed.

Lemma Rsum_bound (F : nat → R) (l : list nat) (M : R) :
  (∀ j, j ∈ l → Rabs (F j) <= M) →
  Rabs (Rsum (F <$> l)) <= INR (length l) * M.
Proof.
  induction l as [|j l IH]; intros HF.
  - simpl. rewrite Rabs_R0. lra.
  - cbn [fmap list_fmap Rsum foldr length]. rewrite S_INR.
    eapply Rle_trans; [apply Rabs_triang|].
    specialize (HF j (list_elem_of_here _ _)) as Hj.
    assert (Rabs (Rsum (F <$> l)) <= INR (length l) * M) as Hl.
    { apply IH. intros i Hi. apply HF. by apply list_elem_of_further. }
    change (foldr Rplus 0 (F <$> l)) with (Rsum (F <$> l)). lra.
Qed.

(** the scenario: e = 0.5, N_it = 10 *)

Lemma theta_interior (j : nat) :
  (1 <= j <= 8)%nat → 3 / 10 <= theta 10 j <= PI - 3 / 10.
Proof.
  intros [H1 H8]. unfold theta, N_fft_ref.
  change (IZR (2 * (10 - 1))) with 18.
  pose proof PI_lower. pose proof PI_upper.
  apply le_INR in H1, H8. simpl in H1, H8.
  assert (1 <= INR j <= 8) as Hj by lra. clear H1 H8.
  set (x := INR j) in *. clearbody x.
  replace (2 * PI * x / 18) with (PI * x / 9) by field.
  assert (PI * 1 <= PI * x) by (apply Rmult_le_compat_l; lra).
  assert (PI * x <= PI * 8) by (apply Rmult_le_compat_l; lra).
  lra.
Qed.

(** the imaginary part of [f] at an interior sample is at least 0.029 *)
Lemma f_im_interior (x : R) (j : nat) :
  (1 <= j <= 8)%nat → 29 / 1000 <= f_im (1 / 2) x (zI_ref (1 / 2) 10 j).
Proof.
  intros Hj. destruct (theta_interior j Hj) as [Ht0 Ht1].
  pose proof (sin_interior _ Ht0 Ht1) as Hs.
  pose proof (SIN_bound (theta 10 j)) as [_ Hs1].
  unfold f_im, zI_ref, r_ref.
  set (y := 1 / 2 / 2 * sin (theta 10 j)).
  assert (29 / 400 <= y <= 1 / 4) as Hy by (unfold y; lra).
  destruct (sinh_enclosure y) as [Hh0 Hh1]; [lra|lra|].
  pose proof (COS_bound x) as Hc.
  pose proof (unit_mul_bound (cos x) (sinh y) (6 / 5 * y) Hc ltac:(lra)).
  lra.
Qed.

Lemma double_angle_weights (t : R) :
  -1 <= cos (2 * t) <= 1 ∧ -1 <= sin (2 * t) <= 1.
Proof. split; [apply COS_bound|apply SIN_bound]. Qed.

Lemma interior_gx1_bound (ell : R) (j : nat) :
  (1 <= j <= 8)%nat → Rabs (interior_gx1 (1 / 2) 10 ell j) <= 60.
Proof.
  intros Hj. unfold interior_gx1. cbv zeta.
  eapply Rle_trans.
  - apply (weighted_inverse_bound _ _ _ _ (29 / 1000)).
    + apply COS_bound.
    + apply SIN_bound.
    + lra.
    + by apply f_im_interior.
  - lra.
Qed.

Lemma interior_gx2_bound (ell : R) (j : nat) :
  (1 <= j <= 8)%nat → Rabs (interior_gx2 (1 / 2) 10 ell j) <= 60.
Proof.
  intros Hj. unfold interior_gx2. cbv zeta.
  eapply Rle_trans.
  - apply (weighted_inverse_bound _ _ _ _ (29 / 1000)).
    + apply COS_bound.
    + apply SIN_bound.
    + lra.
    + by apply f_im_interior.
  - lra.
Qed.

Lemma samples_10 (j : nat) : j ∈ samples 10 → (1 <= j <= 8)%nat.
Proof.
  unfold samples, N_points_ref. simpl. rewrite !elem_of_cons, elem_of_nil.
  lia.
Qed.

Lemma interior_sums_bound (ell : R) :
  Rabs (Rsum (interior_gx1 (1 / 2) 10 ell <$> samples 10)) <= 480
  ∧ Rabs (Rsum (interior_gx2 (1 / 2) 10 ell <$> samples 10)) <= 480.
Proof.
  split.
  - eapply Rle_trans.
    + apply (Rsum_bound _ _ 60). intros j Hj%samples_10.
      by apply interior_gx1_bound.
    + simpl. lra.
  - eapply Rle_trans.
    + apply (Rsum_bound _ _ 60). intros j Hj%samples_10.
      by apply interior_gx2_bound.
    + simpl. lra.
Qed.

(** the right edge sample is 1.5708: [f] there is positive and at most
    6.25e-12 *)
Lemma right_edge_scenario :
  0 < f_real (1 / 2) 1.0708 (center_spec (1 / 2) 1.0708 + r_ref (1 / 2))
    <= 625 / 100000000000000.
Proof.
  pose proof PI_lower. pose proof PI_upper.
  unfold f_real, center_spec, r_ref. rewrite decide_True by lra.
  replace (sin (1.0708 + 1 / 2 / 2 + 1 / 2 / 2))
    with (cos (PI / 2 - 1.5708))
    by (rewrite <- sin_shift; f_equal; lra).
  set (a := PI / 2 - 1.5708).
  assert (- (5 / 1000000) <= a <= - (35 / 10000000)) as Ha by (unfold a; lra).
  clearbody a.
  pose proof (cos_lower a ltac:(lra) ltac:(lra)) as Hl.
  pose proof (cos_upper a ltac:(lra) ltac:(lra)) as Hu.
  assert (1225 / 100000000000000 <= a * a <= 25 / 1000000000000) as Hs by nra.
  replace (a * a * a * a) with (a * a * (a * a)) in Hu by ring.
  set (s := a * a) in *. clearbody s.
  assert (s * s <= s * (25 / 1000000000000)) by (apply Rmult_le_compat_l; lra).
  lra.
Qed.

(** the left edge sample is the mean anomaly itself: [f] there is
    [- e sin 1.0708] *)
Lemma left_edge_scenario :
  - (1 / 2) <= f_real (1 / 2) 1.0708
                 (center_spec (1 / 2) 1.0708 - r_ref (1 / 2))
    <= - (2 / 5).
Proof.
  pose proof PI_lower.
  unfold f_real, center_spec, r_ref. rewrite decide_True by lra.
  replace (1.0708 + 1 / 2 / 2 - 1 / 2 / 2) with 1.0708 by lra.
  pose proof (sin_lower 1.0708 ltac:(lra) ltac:(lra)).
  pose proof (SIN_bound 1.0708). lra.
Qed.

(** the estimate of the scenario exceeds pi/2 by more than 3e-6 and less
    than 6e-6 *)
Lemma scenario_value :
  3 / 1000000 < solve_ref (1 / 2) 10 1.0708 - PI / 2 < 6 / 1000000.
Proof.
  pose proof PI_lower. pose proof PI_upper.
  destruct right_edge_scenario as [HR0 HR1].
  destruct left_edge_scenario as [HL0 HL1].
  destruct (interior_sums_bound 1.0708) as [HS1 HS2].
  unfold solve_ref, gx2_ref, gx1_ref.
  replace 0.5 with (1 / 2) by lra. replace (-0.5) with (- (1 / 2)) by lra.
  set (fR := f_real _ _ (_ + _)) in *. set (fL := f_real _ _ (_ - _)) in *.
  set (S1 := Rsum (interior_gx1 _ _ _ <$> _)) in *.
  set (S2 := Rsum (interior_gx2 _ _ _ <$> _)) in *.
  clearbody fR fL S1 S2.
  apply Rabs_between in HS1, HS2.
  assert (8 * 10000000000 <= 1 / 2 / fR) as HA.
  { unfold Rdiv. assert (/ (625 / 100000000000000) <= / fR)
      by (apply Rinv_le_contravar; lra). lra. }
  assert (1 <= - (1 / 2) / fL <= 5 / 4) as HB1.
  { assert (/ (1 / 2) <= / - fL) by (apply Rinv_le_contravar; lra).
    assert (/ - fL <= / (2 / 5)) by (apply Rinv_le_contravar; lra).
    replace (- (1 / 2) / fL) with (1 / 2 * / - fL) by (field; lra). lra. }
  assert (1 / 2 / fL = - (- (1 / 2) / fL)) as HB2 by (field; lra).
  rewrite HB2. set (A := 1 / 2 / fR) in *. set (B := - (1 / 2) / fL) in *.
  clearbody A B.
  set (g1 := A + B + S1). set (g2 := A + - B + S2).
  assert (2000000000 <= g1) as Hg1 by (unfold g1; lra).
  assert (-1000 <= g2 - g1 <= 1000) as Hd by (unfold g1, g2; lra).
  assert (g2 / g1 * g1 = g2) as Hq by (field; lra).
  set (q := g2 / g1) in *. clearbody q g1 g2.
  assert (- (1 / 1000000) <= q - 1 <= 1 / 1000000) as Hq1.
  { split; apply Rnot_lt_le; intros Hc.
    - assert (1 / 1000000 * g1 <= (1 - q) * g1)
        by (apply Rmult_le_compat_r; lra). lra.
    - assert (1 / 1000000 * g1 <= (q - 1) * g1)
        by (apply Rmult_le_compat_r; lra). lra. }
  unfold center_spec, r_ref. rewrite decide_True by lra. lra.
Qed.

Lemma check_single (x e : R) (n : Z) :
  0 < e < 1 → (2 <= n)%Z → 0 <= x <= 2 * PI →
  check_inputs [x] e n = Ok tt.
Proof.
  intros He Hn Hx. apply check_inputs_ok_iff. repeat split; try tauto.
  - discriminate.
  - apply Forall_cons; split; [lra|]. apply Forall_nil; done.
Qed.

Lemma scenario_solve :
  solve [1.0708] 0.5 10 = Ok [solve_ref (1 / 2) 10 1.0708].
Proof.
  pose proof PI_lower.
  replace 0.5 with (1 / 2) by lra.
  rewrite solve_ok by (apply check_single; lra || lia).
  cbn [fmap list_fmap]. by rewrite output_ref.
Qed.

(** C9, as the code has it: the call of the scenario returns a single
    value that lies between 3e-6 and 6e-6 above pi/2, hence within 1e-5
    of pi/2. *)
Theorem scenario_within_1e_5 :
  ∃ y : R,
    solve [1.0708] 0.5 10 = Ok [y]
    ∧ 3e-6 < y - PI / 2 < 6e-6
    ∧ Rabs (y - PI / 2) <= 1e-5.
Proof.
  exists (solve_ref (1 / 2) 10 1.0708). pose proof scenario_value as Hv.
  split; [apply scenario_solve|]. split; [lra|].
  apply Rabs_le. lra.
Qed.

(** C9, as the claim states it, fails: the value returned is not within
    1e-6 of pi/2. *)
Lemma scenario_not_within_1e_6 :
  ∃ y : R,
    solve [1.0708] 0.5 10 = Ok [y]
    ∧ ¬ Rabs (y - PI / 2) <= 1e-6.
Proof.
  exists (solve_ref (1 / 2) 10 1.0708). pose proof scenario_value as Hv.
  split; [apply scenario_solve|].
  intros Hb%Rabs_between. lra.
Qed.

(** ** Further properties over the reals *)

Lemma check_too_few (x : R) (n : Z) :
  0 <= x <= 2 * PI → (n < 2)%Z →
  check_inputs [x] (1 / 2) n = Raise TooFewPoints.
Proof.
  intros Hx Hn. unfold check_inputs. cbn.
  rewrite !bool_decide_eq_false_2 by (unfold Rmax; lra).
  by destruct (Z.ltb_spec n 2); [|lia].
Qed.

Lemma iteration_count_checked_last_witness :
  (1 < 2)%Z ∧ ∀ n' : Z, (2 ≤ n')%Z → check_inputs [1] (1 / 2) n' = Ok tt.
Proof.
  apply (iteration_count_checked_last [Vec (H:=real_arith) [1]] 0%nat [1]
           (1 / 2) 1 eq_refl).
  apply (compute_contour_raise _ _ [1]); [reflexivity|].
  apply check_too_few; [apply one_in_range|lia].
Defined.


Lemma solve_insert_witness :
  solve (<[0%nat := 0]> [1]) (1 / 2) 2
  = Ok (<[0%nat := output (1 / 2) 2 true 0]> (output (1 / 2) 2 true <$> [1])).
Proof.
  pose proof PI_RGT_0.
  apply (solve_insert (H:=real_arith) [1] _ (1 / 2) 2 0%nat 0).
  - apply solve_ok, check_one, one_in_range.
  - apply check_one. lra.
Defined.

(** X5. The first check that fails decides the error: the eccentricity
    checks come first, then the range of the array, then the iteration
    count. *)
Theorem first_failing_check (ell : list R) (e : R) (n : Z) :
  ell ≠ [] →
  (e <= 0 → solve ell e n = Raise EccentricityNotPositive)
  ∧ (0 < e → 1 <= e → solve ell e n = Raise EccentricityNotBelowOne)
  ∧ (0 < e < 1 → Exists (λ x, x < 0 ∨ 2 * PI < x) ell →
     solve ell e n = Raise MeanAnomalyRange)
  ∧ (0 < e < 1 → Forall (λ x, 0 <= x <= 2 * PI) ell → (n < 2)%Z →
     solve ell e n = Raise TooFewPoints).
Proof.
  intros Hne. destruct ell as [|x t]; [done|].
  rewrite solve_eq. unfold check_inputs. cbn.
  repeat split.
  - intros He. by rewrite bool_decide_eq_true_2.
  - intros He0 He1.
    by rewrite bool_decide_eq_false_2, bool_decide_eq_true_2 by lra.
  - intros He Hex. rewrite !bool_decide_eq_false_2 by lra.
    case_bool_decide as Hmx; [done|].
    rewrite bool_decide_eq_true_2; [done|].
    apply min_below. apply Exists_exists in Hex as (y & Hy & [Hy0|Hy1]).
    + apply Exists_exists. eauto.
    + destruct Hmx. apply max_exceeds, Exists_exists. eauto.
  - intros He Hall Hn. rewrite !bool_decide_eq_false_2 by lra.
    rewrite Forall_forall in Hall.
    rewrite bool_decide_eq_false_2.
    2: { intros (y & Hy & ?)%max_exceeds%Exists_exists.
         specialize (Hall y Hy). lra. }
    rewrite bool_decide_eq_false_2.
    2: { intros (y & Hy & ?)%min_below%Exists_exists.
         specialize (Hall y Hy). lra. }
    by destruct (Z.ltb_spec n 2); [|lia].
Qed.

Lemma first_failing_check_witness :
  solve [1] 0 1 = Raise EccentricityNotPositive.
Proof.
  refine (proj1 (first_failing_check [1] 0 1 _) _).
  - discriminate.
  - lra.
Defined.

(** X6. At the mean anomalies 0, pi and 2 pi an edge sample of the contour is
    the root of Kepler's equation itself: these inputs pass the checks,
    and in exact arithmetic the denominator of an edge term, [fxR] at the
    left edge for 0 and at the right edge for pi and 2 pi, is zero. *)
Theorem edge_sample_at_root (e : R) (n : Z) :
  0 < e < 1 → (2 <= n)%Z →
  check_inputs [0; PI; 2 * PI] e n = Ok tt
  ∧ fxR_left e 0 = 0
  ∧ fxR_right e PI = 0
  ∧ fxR_right e (2 * PI) = 0.
Proof.
  intros He Hn. pose proof PI_RGT_0. repeat split.
  - apply check_inputs_ok_iff. repeat split; try tauto; [discriminate|].
    repeat (apply Forall_cons; split; [lra|]). apply Forall_nil; done.
  - rewrite fxR_left_ref. unfold f_real, center_spec, r_ref.
    rewrite decide_True by lra.
    replace (0 + e / 2 - e / 2) with 0 by lra. rewrite sin_0. lra.
  - rewrite fxR_right_ref. unfold f_real, center_spec, r_ref.
    rewrite decide_False by lra.
    replace (PI - e / 2 + e / 2) with PI by lra. rewrite sin_PI. lra.
  - rewrite fxR_right_ref. unfold f_real, center_spec, r_ref.
    rewrite decide_False by lra.
    replace (2 * PI - e / 2 + e / 2) with (2 * PI) by lra.
    rewrite sin_2PI. lra.
Qed.

Lemma edge_sample_at_root_witness :
  check_inputs [0; PI; 2 * PI] (1 / 2) 10 = Ok tt
  ∧ fxR_left (1 / 2) 0 = 0
  ∧ fxR_right (1 / 2) PI = 0
  ∧ fxR_right (1 / 2) (2 * PI) = 0.
Proof. apply (edge_sample_at_root (1 / 2) 10); [lra|lia]. Defined.

(** X7. Independence of any selection of elements: if a call on an array
    returns, then so does a call on any non-empty array made of elements
    of the first, taken in any order and any number of times, and equal
    input elements give equal output elements in the two calls. *)
Theorem gather_independence (ell ell' out : list R) (e : R) (n : Z) :
  solve ell e n = Ok out →
  ell' ≠ [] →
  ell' ⊆ ell →
  ∃ out' : list R,
    solve ell' e n = Ok out'
    ∧ length out' = length ell'
    ∧ ∀ (i j : nat) (x : R),
        ell !! i = Some x → ell' !! j = Some x → out !! i = out' !! j.
Proof.
  intros [Hc ->]%solve_ok_inv Hne Hsub.
  exists (output (H:=real_arith) e n (one_column ell') <$> ell').
  apply check_inputs_ok_iff in Hc as (He & _ & Hall & Hn).
  split; [|split].
  - apply solve_ok, check_inputs_ok_iff. repeat split; try tauto.
    rewrite Forall_forall in *. intros y Hy. apply Hall, Hsub, Hy.
  - apply length_fmap.
  - intros i j x Hi Hj.
    rewrite (list_lookup_fmap_Some_2 _ _ _ _ Hi).
    rewrite (list_lookup_fmap_Some_2 _ _ _ _ Hj).
    by rewrite !output_ref.
Qed.

Lemma gather_independence_witness :
  ∃ out' : list R,
    solve [1; 0; 1] (1 / 2) 2 = Ok out'
    ∧ length out' = 3%nat
    ∧ ∀ (i j : nat) (x : R),
        [0; 1] !! i = Some x → [1; 0; 1] !! j = Some x →
        (output (H:=real_arith) (1 / 2) 2 false <$> [0; 1]) !! i = out' !! j.
Proof.
  pose proof one_in_range. pose proof PI_RGT_0.
  apply (gather_independence [0; 1] [1; 0; 1] _ (1 / 2) 2).
  - apply solve_ok, check_two; lra.
  - discriminate.
  - intros y. rewrite !elem_of_cons, !elem_of_nil. tauto.
Defined.

(** X13. In exact arithmetic the order in which [np.sum] adds is immaterial,
    and the elements are independent under every partition: for a
    partition of an array into contiguous sub-arrays with at least one
    element each, a single one included, such that the whole array and
    every sub-array pass the checks, solving the sub-arrays one by one
    and concatenating the results gives the array that one call on the
    whole array gives. *)
Theorem partition_independence_exact (chunks : list (list R)) (e : R)
    (n : Z) :
  check_inputs (concat chunks) e n = Ok tt →
  Forall (λ c, c ≠ [] ∧ check_inputs c e n = Ok tt) chunks →
  ∃ out : list R,
    solve (concat chunks) e n = Ok out
    ∧ solve_chunks chunks e n = Ok out
    ∧ length out = length (concat chunks).
Proof.
  intros Hall Hcs. exists (solve_ref e n <$> concat chunks).
  assert (∀ ell : list R, check_inputs ell e n = Ok tt →
            solve ell e n = Ok (solve_ref e n <$> ell)) as Hsolve.
  { intros ell Hc. rewrite (solve_ok _ _ _ Hc). f_equal.
    apply list_fmap_ext. intros _ x _. apply output_ref. }
  split; [by apply Hsolve|]. split; [|by rewrite length_fmap].
  clear Hall. induction Hcs as [|c cs [_ Hc] _ IH]; [done|].
  cbn [solve_chunks concat]. by rewrite (Hsolve c Hc), IH, fmap_app.
Qed.

Lemma partition_independence_exact_witness :
  ∃ out : list R,
    solve [0; 1] (1 / 2) 10 = Ok out
    ∧ solve_chunks [[0]; [1]] (1 / 2) 10 = Ok out
    ∧ length out = 2%nat.
Proof.
  pose proof one_in_range. pose proof PI_RGT_0.
  apply (partition_independence_exact [[0]; [1]] (1 / 2) 10).
  - apply check_inputs_ok_iff. repeat split; try lra; try lia; [discriminate|].
    apply Forall_cons; split; [lra|]. apply Forall_cons; split; [lra|].
    apply Forall_nil; done.
  - apply Forall_cons; split;
      [split; [discriminate|apply check_single; lra || lia]|].
    apply Forall_cons; split;
      [split; [discriminate|apply check_single; lra || lia]|].
    apply Forall_nil; done.
Defined.

(** ** The example of the source over the reals *)

Lemma sin_2PI_minus (x : R) : sin (2 * PI - x) = - sin x.
Proof. rewrite sin_minus, sin_2PI, cos_2PI. ring. Qed.

Lemma cos_2PI_minus (x : R) : cos (2 * PI - x) = cos x.
Proof. rewrite cos_minus, sin_2PI, cos_2PI. ring. Qed.

(** Kepler's equation maps (0, 2 pi) into itself *)
Lemma kepler_range (e E : R) :
  0 < e < 1 → 0 < E < 2 * PI → 0 <= E - e * sin E <= 2 * PI.
Proof.
  intros He HE.
  pose proof (sin_lt_x E ltac:(lra)) as H1.
  pose proof (sin_lt_x (2 * PI - E) ltac:(lra)) as H2.
  rewrite sin_2PI_minus in H2.
  destruct (Rle_dec 0 (sin E)) as [Hs|Hs].
  - assert (e * sin E <= 1 * sin E) by (apply Rmult_le_compat_r; lra).
    assert (0 <= e * sin E) by (apply Rmult_le_pos; lra). lra.
  - assert (e * - sin E <= 1 * - sin E) by (apply Rmult_le_compat_r; lra).
    assert (0 <= e * - sin E) by (apply Rmult_le_pos; lra). lra.
Qed.

Lemma E_true_range (N_ell : Z) (k : nat) :
  (k < Z.to_nat N_ell)%nat → 0 < E_true_at N_ell k < 2 * PI.
Proof.
  intros Hk. unfold E_true_at. cbn.
  assert (0 <= IZR (Z.of_nat k)) as Hk0 by (apply IZR_le; lia).
  assert (IZR (Z.of_nat k) + 1 <= IZR N_ell) as Hk1
    by (rewrite <- plus_IZR; apply IZR_le; lia).
  pose proof PI_RGT_0.
  set (x := IZR (Z.of_nat k)) in *. set (m := IZR N_ell) in *.
  clearbody x m.
  assert (0 < m) by lra.
  assert (0 < / m) as Him by (apply Rinv_0_lt_compat; lra).
  assert ((x + 1 / 2) * / m < 1) as Hq.
  { apply (Rmult_lt_reg_r m); [lra|].
    rewrite Rmult_assoc, Rinv_l by lra. lra. }
  assert (0 < (x + 1 / 2) * / m) as Hq0 by (apply Rmult_lt_0_compat; lra).
  replace (2 * PI * (x + 1 / 2) / m)
    with (2 * PI * ((x + 1 / 2) * / m)) by (unfold Rdiv; ring).
  set (q := (x + 1 / 2) * / m) in *. clearbody q.
  split.
  - apply Rmult_lt_0_compat; lra.
  - rewrite <- (Rmult_1_r (2 * PI)) at 2. apply Rmult_lt_compat_l; lra.
Qed.

(** X8. The script never fails at the checks: for a grid of at least one
    point, an eccentricity in (0, 1) and an iteration count of at least
    2, every mean anomaly it generates lies in [0, 2 pi], the call of the
    kernel returns an array of the length of the grid, and [E_true],
    which the script compares the result with afterwards, is still in
    the store as it was built. *)
Theorem example_returns (N_ell : Z) (e : R) (n : Z) (h : heap) :
  (1 <= N_ell)%Z → 0 < e < 1 → (2 <= n)%Z →
  Forall (λ x, 0 <= x <= 2 * PI) (ell_input N_ell e)
  ∧ ∃ out : list R,
      read_back (example N_ell e n h) = Ok out
      ∧ length out = Z.to_nat N_ell
      ∧ (example N_ell e n h).2 !! length h = Some (Vec (E_true N_ell)).
Proof.
  intros HN He Hn.
  assert (Forall (λ x, 0 <= x <= 2 * PI) (ell_input N_ell e)) as Hall.
  { rewrite ell_input_eq. apply Forall_fmap, Forall_forall.
    intros k Hk. apply elem_of_seq in Hk.
    apply kepler_range; [done|]. apply E_true_range. lia. }
  assert (check_inputs (ell_input N_ell e) e n = Ok tt) as Hc.
  { apply check_inputs_ok_iff. repeat split; try tauto.
    rewrite ell_input_eq. destruct (Z.to_nat N_ell) eqn:E; [lia|].
    discriminate. }
  split; [done|].
  exists (output (H:=real_arith) e n (one_column (ell_input N_ell e))
            <$> ell_input N_ell e).
  rewrite example_run.
  assert ((h ++ [Vec (E_true N_ell); Vec (ell_input N_ell e)])
            !! (length h + 1)%nat = Some (Vec (ell_input N_ell e))) as Hl.
  { rewrite lookup_app_r by lia. by rewrite Nat.add_comm, Nat.add_sub. }
  rewrite (compute_contour_run _ _ _ _ _ Hl Hc).
  unfold read_back. cbn [fst snd]. repeat split.
  - rewrite lookup_app_r by lia. by rewrite Nat.add_comm, Nat.add_sub.
  - rewrite length_fmap, ell_input_eq, length_fmap. apply length_seq.
  - rewrite <- (assoc_L (++)). by rewrite lookup_app_r, Nat.sub_diag by lia.
Qed.

Lemma example_returns_witness :
  Forall (λ x, 0 <= x <= 2 * PI) (ell_input 1000000 (1 / 2)).
Proof.
  apply (example_returns 1000000 (1 / 2) 10 []); [lia|lra|lia].
Defined.

(** ** The reflection symmetry of the solver

    Kepler's equation is odd about pi: if E solves it for ell, then
    2 pi - E solves it for 2 pi - ell.  The contour sum keeps the
    symmetry: the center of 2 pi - ell is the mirror image of the center
    of ell, the two edge samples change places, and the interior sample
    [j] is the mirror image of the conjugate of sample [N_it - 1 - j]. *)

(** a sum over [1 .. k] read backwards *)
Lemma Rsum_backwards (G : nat → R) (k : nat) :
  Rsum ((λ j, G (S k - j)%nat) <$> seq 1 k) = Rsum (G <$> seq 1 k).
Proof.
  induction k as [|k IH]; [done|].
  rewrite (seq_S k 1) at 2. rewrite fmap_app, Rsum_app.
  cbn [seq fmap list_fmap]. rewrite <- fmap_S_seq, <- list_fmap_compose.
  change (Rsum (?x :: ?l)) with (x + Rsum l).
  change ((λ j, G (S (S k) - j)%nat) ∘ S) with (λ j, G (S k - j)%nat).
  rewrite IH. replace (S (S k) - 1)%nat with (S k) by lia.
  change (G (1 + k)%nat + Rsum []) with (G (S k) + 0). lra.
Qed.

Lemma f_real_reflect (e ell x : R) :
  f_real e (2 * PI - ell) (2 * PI - x) = - f_real e ell x.
Proof. unfold f_real. rewrite sin_2PI_minus. ring. Qed.

Lemma f_re_reflect (e ell x y : R) :
  f_re e (2 * PI - ell) (2 * PI - x) y = - f_re e ell x y.
Proof. unfold f_re. rewrite sin_2PI_minus. ring. Qed.

Lemma f_im_reflect (e x y : R) : f_im e (2 * PI - x) y = f_im e x y.
Proof. unfold f_im. by rewrite cos_2PI_minus. Qed.

Lemma inv_re_opp (a b : R) : inv_re (- a) b = - inv_re a b.
Proof.
  unfold inv_re. replace (- a * - a) with (a * a) by ring.
  unfold Rdiv. ring.
Qed.

Lemma inv_im_opp (a b : R) : inv_im (- a) b = inv_im a b.
Proof. unfold inv_im. by replace (- a * - a) with (a * a) by ring. Qed.

Lemma center_reflect (e ell : R) :
  ell < PI → center_spec e (2 * PI - ell) = 2 * PI - center_spec e ell.
Proof.
  intros Hl. pose proof PI_RGT_0. unfold center_spec.
  destruct (decide (2 * PI - ell < PI)); [lra|].
  destruct (decide (ell < PI)); lra.
Qed.

(** the angle of sample [N_it - 1 - j] is the supplement of that of
    sample [j] *)
Lemma theta_reflect (n : Z) (j : nat) :
  (2 <= n)%Z → (j <= Z.to_nat (n - 2))%nat →
  theta n (S (Z.to_nat (n - 2)) - j) = PI - theta n j.
Proof.
  intros Hn Hj. unfold theta, N_fft_ref.
  rewrite minus_INR by lia. rewrite mult_IZR.
  replace (IZR (n - 1)) with (INR (S (Z.to_nat (n - 2)))).
  2: { rewrite INR_IZR_INZ. f_equal. lia. }
  assert (0 < INR (S (Z.to_nat (n - 2)))) by (apply lt_0_INR; lia).
  field. lra.
Qed.

Lemma interior_gx1_reflect (e ell : R) (n : Z) (j : nat) :
  (2 <= n)%Z → ell < PI → (j <= Z.to_nat (n - 2))%nat →
  interior_gx1 e n (2 * PI - ell) j
  = interior_gx1 e n ell (S (Z.to_nat (n - 2)) - j).
Proof.
  intros Hn Hl Hj. unfold interior_gx1, zR_ref, zI_ref. cbv zeta.
  rewrite (theta_reflect n j Hn Hj), (center_reflect e ell Hl).
  rewrite Rtrigo_facts.cos_pi_minus, sin_PI_x.
  set (t := theta n j). set (c := center_spec e ell). set (r := r_ref e).
  replace (2 * PI - c + r * cos t) with (2 * PI - (c + r * - cos t)) by ring.
  rewrite f_re_reflect, f_im_reflect, inv_re_opp, inv_im_opp.
  unfold re_mul. ring.
Qed.

Lemma interior_gx2_reflect (e ell : R) (n : Z) (j : nat) :
  (2 <= n)%Z → ell < PI → (j <= Z.to_nat (n - 2))%nat →
  interior_gx2 e n (2 * PI - ell) j
  = - interior_gx2 e n ell (S (Z.to_nat (n - 2)) - j).
Proof.
  intros Hn Hl Hj. unfold interior_gx2, zR_ref, zI_ref. cbv zeta.
  rewrite (theta_reflect n j Hn Hj), (center_reflect e ell Hl).
  rewrite Rtrigo_facts.cos_pi_minus, sin_PI_x.
  set (t := theta n j). set (c := center_spec e ell). set (r := r_ref e).
  replace (2 * (PI - t)) with (2 * PI - 2 * t) by ring.
  rewrite cos_2PI_minus, sin_2PI_minus.
  replace (2 * PI - c + r * cos t) with (2 * PI - (c + r * - cos t)) by ring.
  rewrite f_re_reflect, f_im_reflect, inv_re_opp, inv_im_opp.
  unfold re_mul. ring.
Qed.

Lemma Rsum_ext (F G : nat → R) (l : list nat) :
  (∀ j, j ∈ l → F j = G j) → Rsum (F <$> l) = Rsum (G <$> l).
Proof.
  intros HFG. f_equal. apply list_fmap_ext. intros i j Hj.
  apply HFG. by eapply list_elem_of_lookup_2.
Qed.

Lemma Rsum_opp (G : nat → R) (l : list nat) :
  Rsum ((λ j, - G j) <$> l) = - Rsum (G <$> l).
Proof.
  unfold Rsum. induction l as [|x l IH]; cbn [fmap list_fmap foldr]; [lra|].
  rewrite IH. lra.
Qed.

Lemma gx1_reflect (e ell : R) (n : Z) :
  (2 <= n)%Z → ell < PI → gx1_ref e n (2 * PI - ell) = gx1_ref e n ell.
Proof.
  intros Hn Hl. unfold gx1_ref. rewrite (center_reflect e ell Hl).
  set (c := center_spec e ell). set (r := r_ref e).
  replace (2 * PI - c + r) with (2 * PI - (c - r)) by ring.
  replace (2 * PI - c - r) with (2 * PI - (c + r)) by ring.
  rewrite !f_real_reflect. unfold samples, N_points_ref.
  rewrite (Rsum_ext _ (λ j, interior_gx1 e n ell
                              (S (Z.to_nat (n - 2)) - j))).
  2: { intros j Hj%elem_of_seq. apply interior_gx1_reflect; lia || done. }
  rewrite (Rsum_backwards (interior_gx1 e n ell)).
  unfold Rdiv. rewrite !Rinv_opp. lra.
Qed.

Lemma gx2_reflect (e ell : R) (n : Z) :
  (2 <= n)%Z → ell < PI → gx2_ref e n (2 * PI - ell) = - gx2_ref e n ell.
Proof.
  intros Hn Hl. unfold gx2_ref. rewrite (center_reflect e ell Hl).
  set (c := center_spec e ell). set (r := r_ref e).
  replace (2 * PI - c + r) with (2 * PI - (c - r)) by ring.
  replace (2 * PI - c - r) with (2 * PI - (c + r)) by ring.
  rewrite !f_real_reflect. unfold samples, N_points_ref.
  rewrite (Rsum_ext _ (λ j, - interior_gx2 e n ell
                                (S (Z.to_nat (n - 2)) - j))).
  2: { intros j Hj%elem_of_seq. apply interior_gx2_reflect; lia || done. }
  rewrite (Rsum_opp (λ j, interior_gx2 e n ell (S (Z.to_nat (n - 2)) - j))).
  rewrite (Rsum_backwards (interior_gx2 e n ell)).
  unfold Rdiv. rewrite !Rinv_opp. lra.
Qed.

Lemma output_reflect (e ell : R) (n : Z) (s s' : bool) :
  (2 <= n)%Z → ell < PI →
  output e n s (2 * PI - ell) = 2 * PI - output e n s' ell.
Proof.
  intros Hn Hl.
  enough (solve_ref e n (2 * PI - ell) = 2 * PI - solve_ref e n ell) as Hs
    by (rewrite !output_ref; exact Hs).
  unfold solve_ref.
  rewrite (gx1_reflect e ell n Hn Hl), (gx2_reflect e ell n Hn Hl).
  rewrite (center_reflect e ell Hl). unfold Rdiv. ring.
Qed.

(** X9. In exact arithmetic the solver commutes with the reflection about
    pi: if a call returns [out] for an array of mean anomalies below pi,
    then the call on the reflected array, every [ell] replaced by
    [2 pi - ell], returns the reflected result, every [E] replaced by
    [2 pi - E]. *)
Theorem reflection_symmetry (ell out : list R) (e : R) (n : Z) :
  solve ell e n = Ok out →
  Forall (λ x, x < PI) ell →
  solve ((λ x, 2 * PI - x) <$> ell) e n = Ok ((λ y, 2 * PI - y) <$> out).
Proof.
  intros [Hc ->]%solve_ok_inv Hlt.
  apply check_inputs_ok_iff in Hc as (He & Hne & Hall & Hn).
  rewrite solve_ok.
  - f_equal. rewrite <- !list_fmap_compose.
    apply list_fmap_ext. intros i x Hx. cbn.
    apply output_reflect; [done|].
    rewrite Forall_forall in Hlt. apply Hlt.
    by eapply list_elem_of_lookup_2.
  - apply check_inputs_ok_iff. repeat split; try tauto.
    + by destruct ell.
    + apply Forall_fmap. eapply Forall_impl; [exact Hall|].
      intros x Hx. cbn. lra.
Qed.

Lemma reflection_symmetry_witness :
  solve ((λ x, 2 * PI - x) <$> [1]) (1 / 2) 10
  = Ok ((λ y, 2 * PI - y)
          <$> (output (H:=real_arith) (1 / 2) 10 true <$> [1])).
Proof.
  pose proof PI2_3_2. pose proof one_in_range.
  apply (reflection_symmetry [1] _ (1 / 2) 10).
  - apply solve_ok, check_single; lra || lia.
  - apply Forall_cons; split; [lra|]. apply Forall_nil; done.
Defined.

(** ** The contour and the root *)

(** X10. The shift of the center puts the root on the real diameter of the
    contour.  For a mean anomaly in [0, 2 pi] and an eccentricity in
    (0, 1): [f] is at most 0 at the left edge sample and at least 0 at
    the right one, so the two edge terms of [ft_gx1] do not cancel, and
    every solution E in [0, 2 pi] of Kepler's equation for this mean
    anomaly lies between the two edge samples. *)
Theorem contour_brackets_root (e ell : R) :
  0 < e < 1 → 0 <= ell <= 2 * PI →
  fxR_left e ell <= 0 <= fxR_right e ell
  ∧ ∀ E : R, 0 <= E <= 2 * PI → E - e * sin E = ell →
      center e ell - radius e <= E <= center e ell + radius e.
Proof.
  intros He Hl. pose proof PI_RGT_0. split.
  - rewrite fxR_left_ref, fxR_right_ref.
    unfold f_real, center_spec, r_ref.
    destruct (decide (ell < PI)) as [Hlt|Hge].
    + replace (ell + e / 2 - e / 2) with ell by lra.
      replace (ell + e / 2 + e / 2) with (ell + e) by lra.
      pose proof (sin_ge_0 ell ltac:(lra) ltac:(lra)) as Hs.
      pose proof (SIN_bound (ell + e)) as [_ Hs1].
      assert (0 <= e * sin ell) by (apply Rmult_le_pos; lra).
      assert (e * sin (ell + e) <= e * 1) by (apply Rmult_le_compat_l; lra).
      lra.
    + replace (ell - e / 2 - e / 2) with (ell - e) by lra.
      replace (ell - e / 2 + e / 2) with ell by lra.
      pose proof (sin_le_0 ell ltac:(lra) ltac:(lra)) as Hs.
      pose proof (SIN_bound (ell - e)) as [Hs1 _].
      assert (0 <= e * - sin ell) by (apply Rmult_le_pos; lra).
      assert (e * -1 <= e * sin (ell - e))
        by (apply Rmult_le_compat_l; lra).
      lra.
  - intros E HE HK. rewrite center_real, radius_ref.
    unfold center_spec, r_ref.
    pose proof (SIN_bound E) as [HE0 HE1].
    assert (e * -1 <= e * sin E) by (apply Rmult_le_compat_l; lra).
    assert (e * sin E <= e * 1) by (apply Rmult_le_compat_l; lra).
    destruct (decide (ell < PI)) as [Hlt|Hge].
    + assert (E <= PI) as HEpi.
      { apply Rnot_lt_le. intros Hgt.
        pose proof (sin_le_0 E ltac:(lra) ltac:(lra)).
        assert (0 <= e * - sin E) by (apply Rmult_le_pos; lra). lra. }
      pose proof (sin_ge_0 E ltac:(lra) HEpi).
      assert (0 <= e * sin E) by (apply Rmult_le_pos; lra). lra.
    + assert (PI <= E) as HEpi.
      { apply Rnot_lt_le. intros Hgt.
        pose proof (sin_ge_0 E ltac:(lra) ltac:(lra)).
        assert (0 <= e * sin E) by (apply Rmult_le_pos; lra). lra. }
      pose proof (sin_le_0 E HEpi ltac:(lra)).
      assert (0 <= e * - sin E) by (apply Rmult_le_pos; lra). lra.
Qed.

Lemma contour_brackets_root_witness :
  fxR_left (1 / 2) 1 <= 0 <= fxR_right (1 / 2) 1.
Proof.
  apply (contour_brackets_root (1 / 2) 1); [lra|apply one_in_range].
Defined.

End RealModel.

(** * binary64 as arithmetic

    Array elements are IEEE 754 binary64 numbers, the operators are the
    primitive ones (round to nearest even, as Python's are); what the
    library computes for sin, cos, cosh and sinh is not fixed by the
    source and is left arbitrary. *)

Module Binary64.

Section Libm.
Variables libm_sin libm_cos libm_cosh libm_sinh : float → float.

(** [np.maximum] and [np.minimum]: a NaN operand is the result *)
Definition np_maximum (x y : float) : float :=
  if PrimFloat.is_nan x then x
  else if PrimFloat.is_nan y then y
  else if PrimFloat.ltb x y then y else x.
Definition np_minimum (x y : float) : float :=
  if PrimFloat.is_nan x then x
  else if PrimFloat.is_nan y then y
  else if PrimFloat.ltb y x then y else x.

(** a Python int, in the range of the machine integers, as a float *)
Definition float_of_int (z : Z) : float :=
  if (z <? 0)%Z
  then PrimFloat.opp (PrimFloat.of_uint63 (Uint63.of_Z (- z)))
  else PrimFloat.of_uint63 (Uint63.of_Z z).

#[local] Instance float_arith : Arith := {|
  num := float;
  fadd := PrimFloat.add;
  fsub := PrimFloat.sub;
  fmul := PrimFloat.mul;
  fdiv := PrimFloat.div;
  fneg := PrimFloat.opp;
  fsin := libm_sin;
  fcos := libm_cos;
  fcosh := libm_cosh;
  fsinh := libm_sinh;
  flt := PrimFloat.ltb;
  fle := PrimFloat.leb;
  fmaximum := np_maximum;
  fminimum := np_minimum;
  of_int := float_of_int;
  half := 0.5%float;
  np_pi := 0x1.921fb54442d18p+1%float;
|}.

(** ** Non-finite values *)

Definition nonfinite (x : float) : bool :=
  match Prim2SF x with
  | S754_infinity _ | S754_nan => true
  | _ => false
  end.

Definition zero (x : float) : bool :=
  match Prim2SF x with
  | S754_zero _ => true
  | _ => false
  end.

Lemma nonfinite_add_l (x y : float) :
  nonfinite x = true → nonfinite (x + y) = true.
Proof.
  unfold nonfinite. rewrite add_spec. unfold SF64add.
  destruct (Prim2SF x) as [| [] | |], (Prim2SF y) as [| [] | |]; done.
Qed.

Lemma nonfinite_add_r (x y : float) :
  nonfinite y = true → nonfinite (x + y) = true.
Proof.
  unfold nonfinite. rewrite add_spec. unfold SF64add.
  destruct (Prim2SF x) as [ [] | [] | |], (Prim2SF y) as [| [] | |]; done.
Qed.

Lemma nonfinite_mul_l (x y : float) :
  nonfinite x = true → nonfinite (x * y) = true.
Proof.
  unfold nonfinite. rewrite mul_spec. unfold SF64mul.
  destruct (Prim2SF x), (Prim2SF y); done.
Qed.

Lemma nonfinite_mul_r (x y : float) :
  nonfinite y = true → nonfinite (x * y) = true.
Proof.
  unfold nonfinite. rewrite mul_spec. unfold SF64mul.
  destruct (Prim2SF x), (Prim2SF y); done.
Qed.

Lemma nonfinite_div_l (x y : float) :
  nonfinite x = true → nonfinite (x / y) = true.
Proof.
  unfold nonfinite. rewrite div_spec. unfold SF64div.
  destruct (Prim2SF x), (Prim2SF y); done.
Qed.

(** a division by zero gives an infinity or NaN, whatever is divided *)
Lemma nonfinite_div_zero (x y : float) :
  zero y = true → nonfinite (x / y) = true.
Proof.
  unfold nonfinite, zero. rewrite div_spec. unfold SF64div.
  destruct (Prim2SF x), (Prim2SF y); done.
Qed.

(** a sum with a non-finite summand is not finite, in whatever order the
    additions are made *)
Lemma nonfinite_summation (l : list float) (v x : float) :
  summation l v → x ∈ l → nonfinite x = true → nonfinite v = true.
Proof.
  intros Hs Hin Hx.
  induction Hs as [|y|l1 l2 v1 v2 _ IH1 _ IH2|l l' v Hp _ IH].
  - by apply elem_of_nil in Hin.
  - by apply list_elem_of_singleton in Hin as <-.
  - cbn [fadd float_arith]. apply elem_of_app in Hin as [Hin|Hin].
    + by apply nonfinite_add_l, IH1.
    + by apply nonfinite_add_r, IH2.
  - apply IH. by rewrite Hp.
Qed.

(** ** The numeric phase *)

(** one of the denominators of the kernel is zero at element [x]: an
    edge term, the squared modulus at an interior sample, or the
    accumulator [ft_gx1] of the final ratio *)
Definition zero_denominator (e : float) (n : Z) (single : bool) (x : float)
  : Prop :=
  zero (fxR_right e x) = true
  ∨ zero (fxR_left e x) = true
  ∨ (∃ j, j ∈ j_arr n ∧ zero (ftmp e n j x) = true)
  ∨ zero (ft_gx1 e n single x) = true.

Lemma nonfinite_ft_gx2 (e : float) (n : Z) (s : bool) (x : float) :
  zero (fxR_right e x) = true
  ∨ zero (fxR_left e x) = true
  ∨ (∃ j, j ∈ j_arr n ∧ zero (ftmp e n j x) = true) →
  nonfinite (ft_gx2 e n s x) = true.
Proof.
  unfold ft_gx2. cbn [fadd fdiv float_arith].
  intros [Hr|[Hl|(j & Hj & Hz)]].
  - apply nonfinite_add_l, nonfinite_add_l. by apply nonfinite_div_zero.
  - apply nonfinite_add_r. by apply nonfinite_div_zero.
  - apply nonfinite_add_l, nonfinite_add_r.
    eapply nonfinite_summation; [apply sum_samples_summation| |].
    + apply (list_elem_of_fmap_2 (λ j, summand_gx2 (H:=float_arith) e n j x)), Hj.
    + unfold summand_gx2. cbn [fadd fmul fdiv float_arith].
      apply nonfinite_add_l, nonfinite_mul_r. by apply nonfinite_div_zero.
Qed.

Lemma nonfinite_output (e : float) (n : Z) (s : bool) (x : float) :
  zero_denominator e n s x → nonfinite (output e n s x) = true.
Proof.
  unfold zero_denominator, output. cbn [fadd fmul fdiv float_arith].
  intros Hz. apply nonfinite_add_r.
  destruct Hz as [Hr|[Hl|[Hj|Hg]]].
  4: by apply nonfinite_div_zero.
  all: apply nonfinite_div_l, nonfinite_mul_r, nonfinite_ft_gx2; auto.
Qed.

(** C8. Once the checks have passed the call returns: no operation of
    the numeric phase raises.  No division is guarded: where a
    denominator is zero at an element, the call still returns, and the
    output array holds an infinity or a NaN at that element. *)
Theorem numeric_phase_never_raises (h : heap) (l : loc) (ell : list float)
    (e : float) (n : Z) :
  h !! l = Some (Vec ell) →
  check_inputs ell e n = Ok tt →
  ∃ out : list float,
    compute_contour l e n h
    = (Ok (length h + 11), h ++ arrays_of_call e n ell)
    ∧ read_back (compute_contour l e n h) = Ok out
    ∧ length out = length ell
    ∧ ∀ (i : nat) (x : float),
        ell !! i = Some x →
        zero_denominator e n (one_column ell) x →
        ∃ y, out !! i = Some y ∧ nonfinite y = true.
Proof.
  intros Hl Hc.
  exists (output (H:=float_arith) e n (one_column (H:=float_arith) ell) <$> ell). repeat split.
  - by apply compute_contour_run.
  - by rewrite (read_back_compute_contour _ _ _ _ _ Hl), Hc.
  - by rewrite length_fmap.
  - intros i x Hi Hz.
    exists (output (H:=float_arith) e n (one_column (H:=float_arith) ell) x). split.
    + apply (list_lookup_fmap_Some_2
               (output (H:=float_arith) e n (one_column (H:=float_arith) ell))), Hi.
    + by apply nonfinite_output.
Qed.


(** ** NaN in the input *)

Definition isnan (x : float) : bool :=
  match Prim2SF x with
  | S754_nan => true
  | _ => false
  end.

Lemma SFcompare_refl_finite (s : bool) (m : positive) (e : Z) :
  SFcompare (S754_finite s m e) (S754_finite s m e) = Some Eq.
Proof.
  unfold SFcompare. rewrite Z.compare_refl, Pos.compare_cont_refl.
  by destruct s.
Qed.

Lemma is_nan_isnan (x : float) : PrimFloat.is_nan x = isnan x.
Proof.
  unfold PrimFloat.is_nan, isnan. rewrite FloatAxioms.eqb_spec. unfold SFeqb.
  destruct (Prim2SF x) as [s|s| |s m e]; try by destruct s.
  - done.
  - by rewrite SFcompare_refl_finite.
Qed.

(** every comparison with a NaN is false *)
Lemma ltb_nan_r (x y : float) : isnan y = true → PrimFloat.ltb x y = false.
Proof.
  unfold isnan. rewrite FloatAxioms.ltb_spec. unfold SFltb.
  destruct (Prim2SF y); try discriminate. by destruct (Prim2SF x).
Qed.

Lemma ltb_nan_l (x y : float) : isnan x = true → PrimFloat.ltb x y = false.
Proof.
  unfold isnan. rewrite FloatAxioms.ltb_spec. unfold SFltb.
  by destruct (Prim2SF x).
Qed.

Lemma leb_nan_r (x y : float) : isnan y = true → PrimFloat.leb x y = false.
Proof.
  unfold isnan. rewrite FloatAxioms.leb_spec. unfold SFleb.
  destruct (Prim2SF y); try discriminate. by destruct (Prim2SF x).
Qed.

Lemma leb_nan_l (x y : float) : isnan x = true → PrimFloat.leb x y = false.
Proof.
  unfold isnan. rewrite FloatAxioms.leb_spec. unfold SFleb.
  by destruct (Prim2SF x).
Qed.

(** [np.maximum] and [np.minimum] propagate a NaN *)
Lemma np_maximum_nan (x y : float) :
  isnan x = true ∨ isnan y = true → isnan (np_maximum x y) = true.
Proof.
  unfold np_maximum. rewrite !is_nan_isnan.
  destruct (isnan x) eqn:Hx; [done|].
  destruct (isnan y) eqn:Hy; [done|]. by intros [|].
Qed.

Lemma np_minimum_nan (x y : float) :
  isnan x = true ∨ isnan y = true → isnan (np_minimum x y) = true.
Proof.
  unfold np_minimum. rewrite !is_nan_isnan.
  destruct (isnan x) eqn:Hx; [done|].
  destruct (isnan y) eqn:Hy; [done|]. by intros [|].
Qed.

Lemma foldl_maximum_nan (t : list float) (a : float) :
  isnan a = true ∨ Exists (λ y, isnan y = true) t →
  isnan (foldl np_maximum a t) = true.
Proof.
  revert a. induction t as [|y t IH]; intros a; simpl.
  - intros [|Hex]; [done|]. by apply Exists_nil in Hex.
  - intros Hn. apply IH. rewrite Exists_cons in Hn.
    destruct Hn as [Ha|[Hy|Ht]]; [left|left|by right];
      apply np_maximum_nan; auto.
Qed.

Lemma foldl_minimum_nan (t : list float) (a : float) :
  isnan a = true ∨ Exists (λ y, isnan y = true) t →
  isnan (foldl np_minimum a t) = true.
Proof.
  revert a. induction t as [|y t IH]; intros a; simpl.
  - intros [|Hex]; [done|]. by apply Exists_nil in Hex.
  - intros Hn. apply IH. rewrite Exists_cons in Hn.
    destruct Hn as [Ha|[Hy|Ht]]; [left|left|by right];
      apply np_minimum_nan; auto.
Qed.

(** X11. The range checks do not see past a NaN: an array that holds a NaN
    passes them whatever its other elements are, since the maximum and
    the minimum are then NaN and every comparison with NaN is false.
    With an eccentricity and an iteration count that pass their checks,
    the call returns. *)
Theorem nan_element_accepted (ell : list float) (e : float) (n : Z) :
  Exists (λ y, isnan y = true) ell →
  PrimFloat.leb e (float_of_int 0) = false →
  PrimFloat.leb (float_of_int 1) e = false →
  (2 ≤ n)%Z →
  check_inputs ell e n = Ok tt
  ∧ ∃ out : list float, solve ell e n = Ok out ∧ length out = length ell.
Proof.
  intros Hex He0 He1 Hn.
  assert (check_inputs ell e n = Ok tt) as Hc.
  { unfold check_inputs. cbn [fle flt fmul of_int np_pi float_arith].
    rewrite He0, He1. destruct ell as [|x t]; [by apply Exists_nil in Hex|].
    apply Exists_cons in Hex. cbn [da_max da_min fmaximum fminimum float_arith].
    rewrite ltb_nan_r by (apply foldl_maximum_nan; tauto).
    rewrite ltb_nan_l by (apply foldl_minimum_nan; tauto).
    by destruct (Z.ltb_spec n 2); [lia|]. }
  split; [done|]. exists (output (H:=float_arith) e n (one_column (H:=float_arith) ell) <$> ell).
  split; [exact (solve_ok (H:=float_arith) ell e n Hc)|apply length_fmap].
Qed.

Lemma isnan_add_l (x y : float) : isnan x = true → isnan (x + y) = true.
Proof.
  unfold isnan. rewrite add_spec. unfold SF64add.
  by destruct (Prim2SF x).
Qed.

Lemma isnan_sub_r (x y : float) : isnan y = true → isnan (x - y) = true.
Proof.
  unfold isnan. rewrite sub_spec. unfold SF64sub.
  destruct (Prim2SF y); try discriminate. by destruct (Prim2SF x).
Qed.

Lemma isnan_div_l (x y : float) : isnan x = true → isnan (x / y) = true.
Proof.
  unfold isnan. rewrite div_spec. unfold SF64div.
  by destruct (Prim2SF x).
Qed.

Lemma isnan_output (e : float) (n : Z) (s : bool) (x : float) :
  isnan e = true → isnan (output e n s x) = true.
Proof.
  intros He. unfold output. cbn [fadd float_arith]. apply isnan_add_l.
  unfold center. cbn [fadd fsub fdiv flt float_arith].
  destruct (PrimFloat.ltb x _).
  - by apply isnan_add_l, isnan_sub_r, isnan_div_l.
  - by apply isnan_sub_r, isnan_div_l.
Qed.

(** X12. A NaN eccentricity is not rejected: both eccentricity checks compare
    it and both comparisons are false.  With an array and an iteration
    count that pass their checks (those an eccentricity of 0.5 is accepted
    with), the call returns, and every element of the output is NaN. *)
Theorem nan_eccentricity_accepted (ell : list float) (e : float) (n : Z) :
  isnan e = true →
  check_inputs ell 0.5%float n = Ok tt →
  ∃ out : list float,
    solve ell e n = Ok out
    ∧ length out = length ell
    ∧ Forall (λ y, isnan y = true) out.
Proof.
  intros He Hc.
  assert (check_inputs ell e n = Ok tt) as Hc'.
  { revert Hc. unfold check_inputs. cbn [fle float_arith].
    cbn [of_int float_arith].
    rewrite (leb_nan_l e (float_of_int 0) He).
    rewrite (leb_nan_r (float_of_int 1) e He).
    destruct (PrimFloat.leb 0.5 (float_of_int 0)); [discriminate|].
    by destruct (PrimFloat.leb (float_of_int 1) 0.5). }
  exists (output (H:=float_arith) e n (one_column (H:=float_arith) ell) <$> ell).
  split; [exact (solve_ok (H:=float_arith) ell e n Hc')|].
  split; [apply length_fmap|].
  apply Forall_fmap, Forall_forall. intros x _. by apply isnan_output.
Qed.

(** ** The order of binary64

    The numbers that are not NaN are totally ordered: by class (the
    infinities, the negative and the positive numbers, the zeros), then
    by exponent and mantissa. *)

Definition place (x : spec_float) : Z * Z * Z :=
  match x with
  | S754_infinity true => (-2, 0, 0)
  | S754_finite true m e => (-1, - e, - Z.pos m)
  | S754_zero _ | S754_nan => (0, 0, 0)
  | S754_finite false m e => (1, e, Z.pos m)
  | S754_infinity false => (2, 0, 0)
  end%Z.

Definition before (p q : Z * Z * Z) : Prop :=
  (p.1.1 < q.1.1
   ∨ (p.1.1 = q.1.1 ∧ (p.1.2 < q.1.2 ∨ (p.1.2 = q.1.2 ∧ p.2 < q.2))))%Z.

Lemma SFltb_before (x y : spec_float) :
  x ≠ S754_nan → y ≠ S754_nan →
  SFltb x y = true ↔ before (place x) (place y).
Proof.
  intros Hx Hy. unfold SFltb, SFcompare, before.
  destruct x as [sx|sx| |sx mx ex], y as [sy|sy| |sy my ey]; try done;
    try destruct sx; try destruct sy; cbn [place fst snd];
    try (split; [discriminate|lia]); try (split; [lia|done]).
  - change (Pos.compare_cont Eq mx my) with (Pos.compare mx my).
    destruct (Z.compare_spec ex ey); destruct (Pos.compare_spec mx my);
      cbn [CompOpp]; split; try discriminate; try done; lia.
  - change (Pos.compare_cont Eq mx my) with (Pos.compare mx my).
    destruct (Z.compare_spec ex ey); destruct (Pos.compare_spec mx my);
      split; try discriminate; try done; lia.
Qed.

Lemma isnan_false (x : float) : isnan x = false → Prim2SF x ≠ S754_nan.
Proof. unfold isnan. by destruct (Prim2SF x). Qed.

Lemma ltb_before (x y : float) :
  isnan x = false → isnan y = false →
  if PrimFloat.ltb x y
  then before (place (Prim2SF x)) (place (Prim2SF y))
  else ¬ before (place (Prim2SF x)) (place (Prim2SF y)).
Proof.
  intros Hx%isnan_false Hy%isnan_false. rewrite FloatAxioms.ltb_spec.
  pose proof (SFltb_before _ _ Hx Hy) as Hb.
  destruct (SFltb _ _).
  - by apply Hb.
  - intros ?%Hb. discriminate.
Qed.

(** a bound is exceeded by the larger of two numbers exactly when it is
    exceeded by one of them *)
Lemma np_maximum_exceeds (b x y : float) :
  isnan x = false → isnan y = false →
  isnan (np_maximum x y) = false
  ∧ PrimFloat.ltb b (np_maximum x y) = PrimFloat.ltb b x || PrimFloat.ltb b y.
Proof.
  intros Hx Hy. unfold np_maximum. rewrite !is_nan_isnan, Hx, Hy.
  destruct (isnan b) eqn:Hb.
  { rewrite !(ltb_nan_l b) by done. by destruct (PrimFloat.ltb x y). }
  pose proof (ltb_before x y Hx Hy) as Hxy.
  pose proof (ltb_before b x Hb Hx) as Hbx.
  pose proof (ltb_before b y Hb Hy) as Hby.
  unfold before in *.
  destruct (PrimFloat.ltb x y), (PrimFloat.ltb b x), (PrimFloat.ltb b y);
    split; try done; exfalso; lia.
Qed.

Lemma np_minimum_below (b x y : float) :
  isnan x = false → isnan y = false →
  isnan (np_minimum x y) = false
  ∧ PrimFloat.ltb (np_minimum x y) b = PrimFloat.ltb x b || PrimFloat.ltb y b.
Proof.
  intros Hx Hy. unfold np_minimum. rewrite !is_nan_isnan, Hx, Hy.
  destruct (isnan b) eqn:Hb.
  { rewrite !(ltb_nan_r _ b) by done. by destruct (PrimFloat.ltb y x). }
  pose proof (ltb_before y x Hy Hx) as Hyx.
  pose proof (ltb_before x b Hx Hb) as Hxb.
  pose proof (ltb_before y b Hy Hb) as Hyb.
  unfold before in *.
  destruct (PrimFloat.ltb y x), (PrimFloat.ltb x b), (PrimFloat.ltb y b);
    split; try done; exfalso; lia.
Qed.

Lemma maximum_exceeds (b x : float) (t : list float) :
  Forall (λ y, isnan y = false) (x :: t) →
  PrimFloat.ltb b (foldl np_maximum x t) = true
  ↔ Exists (λ y, PrimFloat.ltb b y = true) (x :: t).
Proof.
  revert x. induction t as [|y t IH]; intros x Hall; simpl.
  - rewrite Exists_cons, Exists_nil. clear. tauto.
  - apply Forall_cons in Hall as [Hx Hall].
    pose proof Hall as [Hy Ht]%Forall_cons.
    destruct (np_maximum_exceeds b x y Hx Hy) as [Hn Hm].
    rewrite IH by (by apply Forall_cons).
    rewrite !Exists_cons, Hm, orb_true_iff. clear. tauto.
Qed.

Lemma minimum_below (b x : float) (t : list float) :
  Forall (λ y, isnan y = false) (x :: t) →
  PrimFloat.ltb (foldl np_minimum x t) b = true
  ↔ Exists (λ y, PrimFloat.ltb y b = true) (x :: t).
Proof.
  revert x. induction t as [|y t IH]; intros x Hall; simpl.
  - rewrite Exists_cons, Exists_nil. clear. tauto.
  - apply Forall_cons in Hall as [Hx Hall].
    pose proof Hall as [Hy Ht]%Forall_cons.
    destruct (np_minimum_below b x y Hx Hy) as [Hn Hm].
    rewrite IH by (by apply Forall_cons).
    rewrite !Exists_cons, Hm, orb_true_iff. clear. tauto.
Qed.

(** the conditions the specification lists, the comparisons being those
    of binary64 and 2 pi the number [2.*np.pi] *)
Definition out_of_domain (ell : list float) (e : float) (n : Z) : Prop :=
  PrimFloat.leb e 0 = true
  ∨ PrimFloat.leb 1 e = true
  ∨ Exists (λ x, PrimFloat.ltb (2 * 0x1.921fb54442d18p+1) x = true) ell
  ∨ Exists (λ x, PrimFloat.ltb x 0 = true) ell
  ∨ (n < 2)%Z.

Lemma check_inputs_no_nan (ell : list float) (e : float) (n : Z) :
  ell ≠ [] →
  Forall (λ x, isnan x = false) ell →
  (out_of_domain ell e n →
     ∃ x, check_inputs ell e n = Raise x ∧ kernel_error x)
  ∧ (¬ out_of_domain ell e n → check_inputs ell e n = Ok tt).
Proof.
  intros Hne Hall. destruct ell as [|x t]; [done|].
  pose proof (maximum_exceeds (2 * 0x1.921fb54442d18p+1) x t Hall) as Hmax.
  pose proof (minimum_below 0 x t Hall) as Hmin.
  unfold check_inputs, out_of_domain, kernel_error.
  cbn [da_max da_min num fle flt fmul of_int np_pi fmaximum fminimum
       float_arith].
  change (float_of_int 0) with 0%float. change (float_of_int 1) with 1%float.
  change (float_of_int 2) with 2%float.
  destruct (PrimFloat.leb e 0); [split; [eauto 10|tauto]|].
  destruct (PrimFloat.leb 1 e); [split; [eauto 10|tauto]|].
  destruct (PrimFloat.ltb _ (foldl np_maximum x t)).
  { pose proof (proj1 Hmax eq_refl). split; [eauto 10|tauto]. }
  destruct (PrimFloat.ltb (foldl np_minimum x t) 0).
  { pose proof (proj1 Hmin eq_refl). split; [eauto 10|tauto]. }
  destruct (Z.ltb_spec n 2); [split; [eauto 10|tauto]|].
  split; [|done].
  intros [?|[?|[Hx|[Hx|?]]]]; try discriminate; try lia.
  - by apply (proj2 Hmax) in Hx.
  - by apply (proj2 Hmin) in Hx.
Qed.

(** C2, as the code has it: for an array with at least one element, none
    of them NaN, a call raises one of the four errors of the checks
    exactly when the eccentricity is at most 0 or at least 1, some
    element exceeds 2 pi, some element is negative, or the iteration
    count is below 2; it then raises before any array is created, the
    store being the one it was given.  In every other case it
    returns. *)
Theorem domain_errors (h : heap) (l : loc) (ell : list float) (e : float)
    (n : Z) :
  ell ≠ [] →
  Forall (λ x, isnan x = false) ell →
  h !! l = Some (Vec ell) →
  (out_of_domain ell e n →
     ∃ x, kernel_error x ∧ compute_contour l e n h = (Raise x, h))
  ∧ (¬ out_of_domain ell e n →
     compute_contour l e n h
     = (Ok (length h + 11)%nat, h ++ arrays_of_call e n ell)).
Proof.
  intros Hne Hall Hl.
  destruct (check_inputs_no_nan ell e n Hne Hall) as [Hr Ha]. split.
  - intros (x & Hx & Hk)%Hr. exists x. split; [done|].
    by apply compute_contour_raise with ell.
  - intros Hc%Ha. by apply compute_contour_run.
Qed.

End Libm.

(** A stand-in for the library, enough to run the kernel: the four
    functions at the argument 0, whatever the argument. *)
Definition sin_at_0 (_ : float) : float := 0%float.
Definition cos_at_0 (_ : float) : float := 1%float.
Definition cosh_at_0 (_ : float) : float := 1%float.
Definition sinh_at_0 (_ : float) : float := 0%float.

Definition stand_in : Arith :=
  float_arith sin_at_0 cos_at_0 cosh_at_0 sinh_at_0.

Lemma numeric_phase_never_raises_witness :
  ∃ out : list float,
    read_back
      (compute_contour (H:=stand_in) 0 0.5%float 2
         [Vec (H:=stand_in) [4%float]]) = Ok out
    ∧ ∃ y, out !! 0 = Some y ∧ nonfinite y = true.
Proof.
  destruct (numeric_phase_never_raises sin_at_0 cos_at_0 cosh_at_0 sinh_at_0
              [Vec (H:=stand_in) [4%float]] 0 [4%float] 0.5%float 2
              eq_refl eq_refl)
    as (out & _ & Hr & _ & Hz).
  exists out. split; [exact Hr|].
  apply (Hz 0 4%float eq_refl). left. reflexivity.
Defined.

Lemma nan_element_accepted_witness :
  PrimFloat.ltb (2 * 0x1.921fb54442d18p+1) 7 = true
  ∧ check_inputs (H:=stand_in) [nan; 7%float] 0.5%float 2 = Ok tt
  ∧ ∃ out : list float,
      solve (H:=stand_in) [nan; 7%float] 0.5%float 2 = Ok out
      ∧ length out = 2.
Proof.
  split; [reflexivity|].
  apply (nan_element_accepted sin_at_0 cos_at_0 cosh_at_0 sinh_at_0
           [nan; 7%float] 0.5%float 2).
  - apply Exists_cons. by left.
  - reflexivity.
  - reflexivity.
  - lia.
Defined.

Lemma nan_eccentricity_accepted_witness :
  ∃ out : list float,
    solve (H:=stand_in) [1%float] nan 2 = Ok out
    ∧ length out = 1
    ∧ Forall (λ y, isnan y = true) out.
Proof.
  apply (nan_eccentricity_accepted sin_at_0 cos_at_0 cosh_at_0 sinh_at_0
           [1%float] nan 2); reflexivity.
Defined.


(** ** Instances of the checks *)

Lemma in_domain_one : ¬ out_of_domain [1%float] 0.5 2.
Proof.
  unfold out_of_domain. rewrite !Exists_cons, !Exists_nil.
  intros [H|[H|[[H|H]|[[H|H]|H]]]]; try done; try lia;
    vm_compute in H; discriminate.
Qed.

Lemma domain_errors_witness :
  compute_contour (H:=stand_in) 0 0.5%float 2 [Vec (H:=stand_in) [1%float]]
  = (Ok 12, [Vec (H:=stand_in) [1%float]]
            ++ arrays_of_call (H:=stand_in) 0.5%float 2 [1%float]).
Proof.
  refine (proj2 (domain_errors sin_at_0 cos_at_0 cosh_at_0 sinh_at_0
                   [Vec (H:=stand_in) [1%float]] 0 [1%float] 0.5%float 2
                   _ _ _) in_domain_one).
  - discriminate.
  - apply Forall_cons. split; [reflexivity|apply Forall_nil; done].
  - reflexivity.
Defined.

(** C2, as the claim states it, fails in both directions, whatever the
    library.  The array [[nan, 7.0]] has an element above 2 pi and the
    call returns: the maximum of the array is NaN and NaN is above
    nothing.  The array without elements meets none of the five
    conditions and the call raises, from the reduction behind
    [da.max]. *)
Lemma nan_and_empty_arrays :
  (out_of_domain [nan; 7%float] 0.5 2
   ∧ ∀ s c ch sh : float → float,
       ∃ out, solve (H:=float_arith s c ch sh) [nan; 7%float] 0.5%float 2
              = Ok out)
  ∧ (¬ out_of_domain [] 0.5 2
     ∧ ∀ s c ch sh : float → float,
         solve (H:=float_arith s c ch sh) [] 0.5%float 2
         = Raise ZeroSizeReduction).
Proof.
  split; split.
  - right. right. left. apply Exists_cons. right. apply Exists_cons. by left.
  - intros s c ch sh. eexists.
    by apply (solve_ok (H:=float_arith s c ch sh)).
  - unfold out_of_domain. rewrite !Exists_nil.
    intros [H|[H|[H|[H|H]]]]; try done; try lia;
      vm_compute in H; discriminate.
  - intros s c ch sh. by rewrite (solve_eq (H:=float_arith s c ch sh)).
Qed.

(** ** The library at the points of a call

    To run the kernel on binary64 the four library functions are needed
    at the arguments a call gives them.  The tables hold the values of
    the C library (glibc, x86-64) at the arguments met by the calls below:
    eccentricity 0.5, iteration count 10, mean anomalies 1/64 and 9/16.
    At any other argument the stand-in returns NaN. *)









End Binary64.
